(** * Game of Life engine: the generation step and the run coordinator

    A shallow embedding of the engine of the distributed Game of Life
    ([engine/main.go] and the file holding [distributor]), with the
    properties of its specification stated over it. *)

From stdpp Require Import base option list numbers relations strings pretty.

Local Open Scope Z_scope.

(** ** Machine integers

    Go's [int] is 64 bits wide on the platforms the engine is built for;
    sums wrap around in two's complement. *)

Definition wrap (z : Z) : Z := (z + 2 ^ 63) `mod` 2 ^ 64 - 2 ^ 63.

Definition int_add (a b : Z) : Z := wrap (a + b).

Definition int_sub (a b : Z) : Z := wrap (a - b).

(** The runtime refuses to allocate a slice beyond the address space
    (48 bits): no grid in memory has more cells than this. *)
Definition max_alloc : Z := 2 ^ 48.

(** ** Data *)

Record Params := mkParams {
  Turns : Z;
  Threads : Z;
  ImageWidth : Z;
  ImageHeight : Z
}.

Global Instance Params_eq_dec : EqDecision Params.
Proof. solve_decision. Defined.

(** [[][]byte]: a slice of rows, a cell being a byte held as an integer of
    [0, 256). *)
Abbreviation grid := (list (list Z)).

(** [l[i]]: the index expression panics ([None]) outside [0, len l). *)
Definition index {A} (l : list A) (i : Z) : option A :=
  if decide (0 ≤ i) then l !! Z.to_nat i else None.

(** [w[y][x]] as a value. *)
Definition get_cell (w : grid) (y x : Z) : option Z :=
  row ← index w y; index row x.

(** [w[y][x] = v]. *)
Definition set_cell (w : grid) (y x v : Z) : option grid :=
  row ← index w y;
  _ ← index row x;
  Some (<[Z.to_nat y := <[Z.to_nat x := v]> row]> w).

(** ** Loops

    [for i := lo; i < hi; i++ { body }] over a state that the body may
    fail (panic) to update. The counter stays at most [hi], so it never
    wraps. *)
Fixpoint for_range {S} (body : Z → S → option S) (i : Z) (n : nat) (s : S)
  : option S :=
  match n with
  | O => Some s
  | Datatypes.S n' => s' ← body i s; for_range body (i + 1) n' s'
  end.

Definition for_upto {S} (lo hi : Z) (body : Z → S → option S) (s : S)
  : option S :=
  for_range body lo (Z.to_nat (hi - lo)) s.

(** ** The stepper's helpers *)

(** [func mod(x, m int) int { return (x + m) % m }], named [mod_int] as
    [mod] is reserved: Go's [%] truncates towards zero and panics on a
    zero divisor. *)
Definition mod_int (x m : Z) : option Z :=
  if decide (m = 0) then None else Some (Z.rem (int_add x m) m).

Definition aliveNeighbours (world : grid) (y x : Z) (p : Params) : option Z :=
  for_upto (-1) 2 (λ i neighbours,
    for_upto (-1) 2 (λ j neighbours,
      if decide (i ≠ 0 ∨ j ≠ 0) then
        yy ← mod_int (int_add y i) (ImageHeight p);
        xx ← mod_int (int_add x j) (ImageWidth p);
        c ← get_cell world yy xx;
        if decide (c ≠ 0) then Some (int_add neighbours 1)
        else Some neighbours
      else Some neighbours) neighbours) 0.

Definition getNumAliveCells (p : Params) (world : grid) : option Z :=
  for_upto 0 (ImageHeight p) (λ y aliveCellsNum,
    for_upto 0 (ImageWidth p) (λ x aliveCellsNum,
      c ← get_cell world y x;
      if decide (c = 255) then Some (int_add aliveCellsNum 1)
      else Some aliveCellsNum) aliveCellsNum) 0.

(** [make([][]byte, h)] followed by [make([]byte, w)] for every row;
    [make] panics on a negative length. *)
Definition make_grid (p : Params) : option grid :=
  if decide (ImageHeight p < 0) then None
  else if decide (0 < ImageHeight p ∧ ImageWidth p < 0) then None
  else Some (replicate (Z.to_nat (ImageHeight p))
                       (replicate (Z.to_nat (ImageWidth p)) 0)).

(** ** One generation: the [default] branch of the loop's [select] *)

(** The value the branch stores in [tempWorld[y][x]]. *)
Definition next_cell (c numAliveNeighbours : Z) : Z :=
  if decide (c = 255) then
    if decide (numAliveNeighbours = 2 ∨ numAliveNeighbours = 3) then 255
    else 0
  else
    if decide (numAliveNeighbours = 3) then 255 else 0.

(** First pair of loops: every cell of [tempWorld] is computed from
    [world], which is only read. *)
Definition compute_temp (p : Params) (world tempWorld : grid) : option grid :=
  for_upto 0 (ImageHeight p) (λ y tempWorld,
    for_upto 0 (ImageWidth p) (λ x tempWorld,
      numAliveNeighbours ← aliveNeighbours world y x p;
      c ← get_cell world y x;
      set_cell tempWorld y x (next_cell c numAliveNeighbours)) tempWorld) tempWorld.

(** Second pair of loops: [world[y][x] = tempWorld[y][x]], in place. *)
Definition copy_back (p : Params) (world tempWorld : grid) : option grid :=
  for_upto 0 (ImageHeight p) (λ y world,
    for_upto 0 (ImageWidth p) (λ x world,
      v ← get_cell tempWorld y x;
      set_cell world y x v) world) world.

(** Both pairs in sequence: the contents of [world] and of [tempWorld]
    once the generation is computed. *)
Definition generation (p : Params) (world tempWorld : grid)
  : option (grid * grid) :=
  tempWorld' ← compute_temp p world tempWorld;
  world' ← copy_back p world tempWorld';
  Some (world', tempWorld').

(** ** The engine's shared state

    Slices are references: [world] in [distributor], [args.World], the
    global [WORLD] once a generation is published and every value sent on
    [FINISHEDCHANNEL] name the same rows. Grids therefore live in a store,
    and the variables hold locations. *)

Abbreviation loc := nat.

Record Globals := mkGlobals {
  heap : list grid;
  WORLD : option loc;                 (* [nil] until first assigned *)
  PARAMS : Params;
  ALIVECELLS : Z;
  COMPLETEDTURNS : Z;
  PAUSECHANNEL : option bool;         (* [make(chan bool, 1)] *)
  FINISHEDCHANNEL : option loc;       (* [make(chan [][]byte, 1)] *)
  CANCELCHANNEL : option bool;        (* [make(chan bool, 1)] *)
  NUMBEROFCONTINUES : Z;
  DONECANCELINGCHANNEL : option bool  (* [make(chan bool, 1)] *)
}.

(** The package-level initialisers of [engine/main.go]. *)
Definition init_globals : Globals :=
  mkGlobals [] None (mkParams 0 0 0 0) 0 0 None None None 0 None.

Definition with_heap (h : list grid) (g : Globals) : Globals :=
  mkGlobals h (WORLD g) (PARAMS g) (ALIVECELLS g) (COMPLETEDTURNS g)
    (PAUSECHANNEL g) (FINISHEDCHANNEL g) (CANCELCHANNEL g)
    (NUMBEROFCONTINUES g) (DONECANCELINGCHANNEL g).

Definition with_WORLD (w : option loc) (g : Globals) : Globals :=
  mkGlobals (heap g) w (PARAMS g) (ALIVECELLS g) (COMPLETEDTURNS g)
    (PAUSECHANNEL g) (FINISHEDCHANNEL g) (CANCELCHANNEL g)
    (NUMBEROFCONTINUES g) (DONECANCELINGCHANNEL g).

Definition with_PARAMS (p : Params) (g : Globals) : Globals :=
  mkGlobals (heap g) (WORLD g) p (ALIVECELLS g) (COMPLETEDTURNS g)
    (PAUSECHANNEL g) (FINISHEDCHANNEL g) (CANCELCHANNEL g)
    (NUMBEROFCONTINUES g) (DONECANCELINGCHANNEL g).

(** Progress: [ALIVECELLS] and [COMPLETEDTURNS] together. *)
Definition with_progress (alive turns : Z) (g : Globals) : Globals :=
  mkGlobals (heap g) (WORLD g) (PARAMS g) alive turns
    (PAUSECHANNEL g) (FINISHEDCHANNEL g) (CANCELCHANNEL g)
    (NUMBEROFCONTINUES g) (DONECANCELINGCHANNEL g).

Definition with_PAUSECHANNEL (c : option bool) (g : Globals) : Globals :=
  mkGlobals (heap g) (WORLD g) (PARAMS g) (ALIVECELLS g) (COMPLETEDTURNS g)
    c (FINISHEDCHANNEL g) (CANCELCHANNEL g)
    (NUMBEROFCONTINUES g) (DONECANCELINGCHANNEL g).

Definition with_FINISHEDCHANNEL (c : option loc) (g : Globals) : Globals :=
  mkGlobals (heap g) (WORLD g) (PARAMS g) (ALIVECELLS g) (COMPLETEDTURNS g)
    (PAUSECHANNEL g) c (CANCELCHANNEL g)
    (NUMBEROFCONTINUES g) (DONECANCELINGCHANNEL g).

Definition with_CANCELCHANNEL (c : option bool) (g : Globals) : Globals :=
  mkGlobals (heap g) (WORLD g) (PARAMS g) (ALIVECELLS g) (COMPLETEDTURNS g)
    (PAUSECHANNEL g) (FINISHEDCHANNEL g) c
    (NUMBEROFCONTINUES g) (DONECANCELINGCHANNEL g).

Definition with_NUMBEROFCONTINUES (n : Z) (g : Globals) : Globals :=
  mkGlobals (heap g) (WORLD g) (PARAMS g) (ALIVECELLS g) (COMPLETEDTURNS g)
    (PAUSECHANNEL g) (FINISHEDCHANNEL g) (CANCELCHANNEL g)
    n (DONECANCELINGCHANNEL g).

Definition with_DONECANCELINGCHANNEL (c : option bool) (g : Globals)
  : Globals :=
  mkGlobals (heap g) (WORLD g) (PARAMS g) (ALIVECELLS g) (COMPLETEDTURNS g)
    (PAUSECHANNEL g) (FINISHEDCHANNEL g) (CANCELCHANNEL g)
    (NUMBEROFCONTINUES g) c.

(** The grid a slice variable denotes when it is encoded into a reply;
    a [nil] slice has no rows. *)
Definition deref (g : Globals) (r : option loc) : grid :=
  match r with
  | None => []
  | Some l => default [] (heap g !! l)
  end.

(** ** Remote calls as threads

    net/rpc serves every call on a goroutine of its own. A thread is the
    program point a call has reached, with its local variables; a step
    runs it up to its next access to a channel or, inside a generation,
    up to the end of the current pair of loops. *)

Inductive reply :=
| RBool (b : bool)                            (* [*bool] *)
| RWorld (world : grid)                       (* [*[][]byte] *)
| RSnapshot (completedTurns : Z) (world : grid) (* [SaveReply], [PauseReply] *)
| RTurns (completedTurns : Z)                 (* [*int] of [Quit] *)
| RAlive (aliveCells completedTurns : Z).     (* [AliveCellsReply] *)

Inductive thread :=
(* Engine.IsAlreadyRunning *)
| IsAlreadyRunning_entry (p : Params)
| IsAlreadyRunning_cancel        (* at [CANCELCHANNEL <- true] *)
| IsAlreadyRunning_wait          (* at [<- DONECANCELINGCHANNEL] *)
(* Engine.Start and the distributor it calls *)
| Start_entry (args_P : Params) (args_World : grid)
| Dist_head (p : Params) (world tempWorld : loc) (turns : Z)
                                 (* at [turns < p.Turns], then the [select] *)
| Dist_copy (p : Params) (world tempWorld : loc) (turns : Z)
                                 (* [tempWorld] computed, before copying back *)
| Dist_paused (p : Params) (world tempWorld : loc) (turns : Z)
                                 (* at [tempKey := <-PAUSECHANNEL] *)
| Dist_cancel_send (world : loc) (i : Z)
                                 (* cancel case, at [i < NUMBEROFCONTINUES] *)
| Dist_cancel_done (world : loc) (* at [DONECANCELINGCHANNEL <- true] *)
| Dist_final_send (world : loc) (i : Z)
                                 (* after the loop, at [i < NUMBEROFCONTINUES] *)
| Start_return (world : loc)     (* [WORLD = distributor(...)], [*reply = WORLD] *)
(* Engine.Continue *)
| Continue_entry
| Continue_wait                  (* at [<-FINISHEDCHANNEL] *)
(* Engine.Save *)
| Save_entry
(* Engine.Pause *)
| Pause_entry                    (* at [PAUSECHANNEL <- true] *)
| Pause_reply
(* Engine.Execute *)
| Execute_entry                  (* at [PAUSECHANNEL <- false] *)
| Execute_reply
(* Engine.Quit, Engine.GetAliveCells *)
| Quit_entry
| GetAliveCells_entry
(* the call has returned its reply; an index or [make] panicked *)
| Done (r : reply)
| Panicked.

Global Instance reply_eq_dec : EqDecision reply.
Proof. solve_decision. Defined.

Global Instance thread_eq_dec : EqDecision thread.
Proof. solve_decision. Defined.

(** The [select] at the head of the loop: a ready [CANCELCHANNEL] or
    [PAUSECHANNEL] case may be taken (either, when both are ready); the
    [default] case runs only when neither is. *)
Definition select_cases (g : Globals) (p : Params) (world tempWorld : loc)
    (turns : Z) : list (Globals * thread) :=
  match CANCELCHANNEL g with
  | Some _ =>
      [(with_progress 0 0 (with_CANCELCHANNEL None g),
        Dist_cancel_send world 0)]
  | None => []
  end ++
  match PAUSECHANNEL g with
  | Some pause =>
      [(with_PAUSECHANNEL None g,
        if pause then Dist_paused p world tempWorld turns
        else Dist_head p world tempWorld (turns + 1))]
  | None => []
  end.

(** The first half of the [default] case. *)
Definition default_compute (g : Globals) (p : Params) (world tempWorld : loc)
    (turns : Z) : Globals * thread :=
  match
    w ← heap g !! world; t ← heap g !! tempWorld; compute_temp p w t
  with
  | Some t' =>
      (with_heap (<[tempWorld := t']> (heap g)) g,
       Dist_copy p world tempWorld turns)
  | None => (g, Panicked)
  end.

(** The second half: copy back, then [WORLD = world],
    [ALIVECELLS = getNumAliveCells(p, world)],
    [COMPLETEDTURNS = turns + 1]. *)
Definition default_publish (g : Globals) (p : Params) (world tempWorld : loc)
    (turns : Z) : Globals * thread :=
  match
    w ← heap g !! world; t ← heap g !! tempWorld;
    w' ← copy_back p w t;
    alive ← getNumAliveCells p w';
    Some (w', alive)
  with
  | Some (w', alive) =>
      (with_progress alive (int_add turns 1)
         (with_WORLD (Some world)
            (with_heap (<[world := w']> (heap g)) g)),
       Dist_head p world tempWorld (turns + 1))
  | None => (g, Panicked)
  end.

(** [for i := 0; i < NUMBEROFCONTINUES; i++ { FINISHEDCHANNEL <- world }]
    followed by [NUMBEROFCONTINUES = 0]: one iteration, or the exit, with
    the thread the loop is left for. A send blocks while the buffer is
    full. *)
Definition drain (g : Globals) (world : loc) (i : Z)
    (again : Z → thread) (after : thread) : list (Globals * thread) :=
  if decide (i < NUMBEROFCONTINUES g) then
    match FINISHEDCHANNEL g with
    | None => [(with_FINISHEDCHANNEL (Some world) g, again (i + 1))]
    | Some _ => []
    end
  else [(with_NUMBEROFCONTINUES 0 g, after)].

(** The steps a thread can take in a state of the globals: none when it
    is blocked or has finished, several when a [select] has a choice. *)
Definition thread_step (g : Globals) (t : thread) : list (Globals * thread) :=
  match t with
  | IsAlreadyRunning_entry p =>
      if decide (int_sub (COMPLETEDTURNS g) 1 > 0) then
        if decide (PARAMS g = p) then [(g, Done (RBool true))]
        else [(g, IsAlreadyRunning_cancel)]
      else [(g, Done (RBool false))]
  | IsAlreadyRunning_cancel =>
      match CANCELCHANNEL g with
      | None => [(with_CANCELCHANNEL (Some true) g, IsAlreadyRunning_wait)]
      | Some _ => []
      end
  | IsAlreadyRunning_wait =>
      match DONECANCELINGCHANNEL g with
      | Some _ => [(with_DONECANCELINGCHANNEL None g, Done (RBool false))]
      | None => []
      end
  | Start_entry p world =>
      match make_grid p with
      | Some tempWorld =>
          [(with_PARAMS p (with_heap (heap g ++ [world; tempWorld]) g),
            Dist_head p (length (heap g)) (Datatypes.S (length (heap g))) 0)]
      | None => [(with_PARAMS p g, Panicked)]
      end
  | Dist_head p world tempWorld turns =>
      if decide (turns < Turns p) then
        match select_cases g p world tempWorld turns with
        | [] => [default_compute g p world tempWorld turns]
        | ready => ready
        end
      else [(with_progress 0 0 g, Dist_final_send world 0)]
  | Dist_copy p world tempWorld turns =>
      [default_publish g p world tempWorld turns]
  | Dist_paused p world tempWorld turns =>
      match PAUSECHANNEL g with
      | Some tempKey =>
          [(with_PAUSECHANNEL None g,
            if tempKey then Dist_paused p world tempWorld turns
            else Dist_head p world tempWorld (turns + 1))]
      | None => []
      end
  | Dist_cancel_send world i =>
      drain g world i (Dist_cancel_send world) (Dist_cancel_done world)
  | Dist_cancel_done world =>
      match DONECANCELINGCHANNEL g with
      | None =>
          [(with_DONECANCELINGCHANNEL (Some true) g, Start_return world)]
      | Some _ => []
      end
  | Dist_final_send world i =>
      drain g world i (Dist_final_send world) (Start_return world)
  | Start_return world =>
      [(with_WORLD (Some world) g, Done (RWorld (deref g (Some world))))]
  | Continue_entry =>
      [(with_NUMBEROFCONTINUES (int_add (NUMBEROFCONTINUES g) 1) g,
        Continue_wait)]
  | Continue_wait =>
      match FINISHEDCHANNEL g with
      | Some world =>
          [(with_FINISHEDCHANNEL None g,
            Done (RWorld (deref g (Some world))))]
      | None => []
      end
  | Save_entry =>
      [(g, Done (RSnapshot (COMPLETEDTURNS g) (deref g (WORLD g))))]
  | Pause_entry =>
      match PAUSECHANNEL g with
      | None => [(with_PAUSECHANNEL (Some true) g, Pause_reply)]
      | Some _ => []
      end
  | Pause_reply =>
      [(g, Done (RSnapshot (COMPLETEDTURNS g) (deref g (WORLD g))))]
  | Execute_entry =>
      match PAUSECHANNEL g with
      | None => [(with_PAUSECHANNEL (Some false) g, Execute_reply)]
      | Some _ => []
      end
  | Execute_reply =>
      [(g, Done (RSnapshot (COMPLETEDTURNS g) (deref g (WORLD g))))]
  | Quit_entry => [(g, Done (RTurns (COMPLETEDTURNS g)))]
  | GetAliveCells_entry =>
      [(g, Done (RAlive (ALIVECELLS g) (COMPLETEDTURNS g)))]
  | Done _ => []
  | Panicked => []
  end.

(** ** The engine as a transition system

    The state is the globals and the pool of calls, pending (at their
    entry) or in progress. A step is a step of one thread of the pool; a
    panic ends the process. *)

Record system := mkSystem {
  globals : Globals;
  pool : list thread
}.

Inductive engine_step : system → system → Prop :=
| engine_step_thread g ts i t g' t' :
    Panicked ∉ ts →
    ts !! i = Some t →
    (g', t') ∈ thread_step g t →
    engine_step (mkSystem g ts) (mkSystem g' (<[i := t']> ts)).

(** Running a schedule: each entry names the thread to step and which of
    its possible steps to take. *)
Definition run_one (s : system) (c : nat * nat) : option system :=
  if decide (Panicked ∈ pool s) then None else
  t ← pool s !! c.1;
  '(g', t') ← thread_step (globals s) t !! c.2;
  Some (mkSystem g' (<[c.1 := t']> (pool s))).

Fixpoint run (sched : list (nat * nat)) (s : system) : option system :=
  match sched with
  | [] => Some s
  | c :: sched' => s' ← run_one s c; run sched' s'
  end.

(** ** The rule as the specification words it

    A cell is alive when it holds 255. The eight Moore neighbours of
    (y, x) sit at ((y + i) mod h, (x + j) mod w), the grid being a torus.
    An alive cell survives with 2 or 3 alive neighbours, a dead cell is
    born with exactly 3, every other cell is dead. *)

Definition offsets : list (Z * Z) :=
  [(-1, -1); (-1, 0); (-1, 1); (0, -1); (0, 1); (1, -1); (1, 0); (1, 1)].

Definition torus_neighbour (p : Params) (y x : Z) (o : Z * Z) : Z * Z :=
  ((y + o.1) `mod` ImageHeight p, (x + o.2) `mod` ImageWidth p).

Definition alive (w : grid) (yx : Z * Z) : bool :=
  bool_decide (get_cell w yx.1 yx.2 = Some 255).

Definition alive_neighbour_count (p : Params) (w : grid) (y x : Z) : Z :=
  Z.of_nat (length (filter (λ o, alive w (torus_neighbour p y x o)) offsets)).

Definition life_rule (is_alive : bool) (count : Z) : bool :=
  if is_alive then bool_decide (count = 2 ∨ count = 3)
  else bool_decide (count = 3).

Definition cell_of_bool (b : bool) : Z := if b then 255 else 0.

(** The next generation of a whole grid. *)
Definition spec_step (p : Params) (w : grid) : grid :=
  imap (λ y row,
    imap (λ x _,
      cell_of_bool
        (life_rule (alive w (Z.of_nat y, Z.of_nat x))
           (alive_neighbour_count p w (Z.of_nat y) (Z.of_nat x)))) row) w.

(** ** Well-formed grids *)

(** The grid has [ImageHeight] rows of [ImageWidth] cells, and fits in
    memory. *)
Definition has_dims (p : Params) (w : grid) : Prop :=
  Z.of_nat (length w) = ImageHeight p ∧
  Forall (λ row, Z.of_nat (length row) = ImageWidth p) w ∧
  ImageHeight p * ImageWidth p ≤ max_alloc.

(** Every cell is dead (0) or alive (255). *)
Definition binary (w : grid) : Prop :=
  Forall (Forall (λ c, c = 0 ∨ c = 255)) w.

Definition well_formed (p : Params) (w : grid) : Prop :=
  has_dims p w ∧ binary w.

(** The cells that are not 0: alive as the neighbour count has it. *)
Definition count_nonzero (w : grid) : Z :=
  Z.of_nat (length (filter (λ c, c ≠ 0) (concat w))).

(** The test [world[..][..] != 0] of the neighbour count. *)
Definition nonzero (w : grid) (yx : Z * Z) : bool :=
  match get_cell w yx.1 yx.2 with
  | Some c => bool_decide (c ≠ 0)
  | None => false
  end.

(** The body of the inner loop of [aliveNeighbours]. *)
Definition visit_neighbour (p : Params) (w : grid) (y x i j neighbours : Z)
  : option Z :=
  if decide (i ≠ 0 ∨ j ≠ 0) then
    yy ← mod_int (int_add y i) (ImageHeight p);
    xx ← mod_int (int_add x j) (ImageWidth p);
    c ← get_cell w yy xx;
    if decide (c ≠ 0) then Some (int_add neighbours 1)
    else Some neighbours
  else Some neighbours.

(** What one neighbour test adds to the count: the centre is skipped. *)
Definition neighbour_bit (p : Params) (w : grid) (y x i j : Z) : Z :=
  if decide (i ≠ 0 ∨ j ≠ 0)
  then Z.b2z (nonzero w (torus_neighbour p y x (i, j)))
  else 0.

(** The count [aliveNeighbours] arrives at. *)
Definition nonzero_neighbour_count (p : Params) (w : grid) (y x : Z) : Z :=
  Z.of_nat (length (filter (λ o, nonzero w (torus_neighbour p y x o)) offsets)).

(** The grid a generation leaves in [world], cell by cell as the loop
    computes it. *)
Definition next_grid (p : Params) (w : grid) : grid :=
  imap (λ y row,
    imap (λ x c,
      next_cell c (nonzero_neighbour_count p w (Z.of_nat y) (Z.of_nat x)))
      row) w.

(** The cells that hold 255: what [getNumAliveCells] counts. *)
Definition count_alive (w : grid) : Z :=
  Z.of_nat (length (filter (λ c, c = 255) (concat w))).

(** ** Sample inputs *)

(** A 3 x 3 torus holding a vertical bar. *)
Definition sample_params : Params := mkParams 2 1 3 3.

Definition sample_world : grid :=
  [[0; 255; 0]; [0; 255; 0]; [0; 255; 0]].

Definition sample_temp : grid :=
  [[0; 0; 0]; [0; 0; 0]; [0; 0; 0]].

(** ** Runs and waiters *)

(** The grid after [k] generations. *)
Definition generations (p : Params) (w : grid) (k : nat) : grid :=
  Nat.iter k (next_grid p) w.

(** The number of iterations the loop [turns < p.Turns] makes. *)
Definition turn_limit (p : Params) : nat := Z.to_nat (Turns p).

(** Among the calls of [Continue], those that are no longer waiting. *)
Definition served (cs : list thread) : nat :=
  length (filter (λ t, t ≠ Continue_wait) cs).

(** Every call of [Continue] waits or has returned [final]. *)
Definition waiters_of (final : grid) (cs : list thread) : Prop :=
  Forall (λ t, t = Continue_wait ∨ t = Done (RWorld final)) cs.

(** The grids sitting in the buffer of [FINISHEDCHANNEL]. *)
Definition in_flight (g : Globals) : nat :=
  match FINISHEDCHANNEL g with Some _ => 1 | None => 0 end.

(** No signal is pending and the [N] waiters are registered. *)
Definition quiet (N : nat) (g : Globals) : Prop :=
  PAUSECHANNEL g = None ∧ CANCELCHANNEL g = None ∧
  NUMBEROFCONTINUES g = Z.of_nat N.

(** The run is over: Progress is reset and [world] holds [final]; what
    [FINISHEDCHANNEL] buffers is [world]. *)
Definition concluded (wl : loc) (final : grid) (g : Globals) : Prop :=
  ALIVECELLS g = 0 ∧ COMPLETEDTURNS g = 0 ∧
  heap g !! wl = Some final ∧
  (FINISHEDCHANNEL g = None ∨ FINISHEDCHANNEL g = Some wl).

(** The states of a run of [Start p w0] beside [N] registered waiters,
    in which no signal is ever sent, indexed by the number of steps taken
    to reach them. [wl] is where [args.World] is stored, [tempWorld]
    follows it. *)
Inductive run_inv (p : Params) (w0 : grid) (N : nat) (wl : loc)
  : nat → system → Prop :=
| run_inv_entry g :
    quiet N g → FINISHEDCHANNEL g = None → length (heap g) = wl →
    run_inv p w0 N wl 0
      (mkSystem g (Start_entry p w0 :: replicate N Continue_wait))
| run_inv_head g k t :
    quiet N g → FINISHEDCHANNEL g = None →
    heap g !! wl = Some (generations p w0 k) →
    heap g !! Datatypes.S wl = Some t → length <$> t = length <$> w0 →
    (k ≤ turn_limit p)%nat →
    run_inv p w0 N wl (1 + 2 * k)
      (mkSystem g (Dist_head p wl (Datatypes.S wl) (Z.of_nat k)
                   :: replicate N Continue_wait))
| run_inv_copy g k :
    quiet N g → FINISHEDCHANNEL g = None →
    heap g !! wl = Some (generations p w0 k) →
    heap g !! Datatypes.S wl = Some (generations p w0 (Datatypes.S k)) →
    (k < turn_limit p)%nat →
    run_inv p w0 N wl (2 + 2 * k)
      (mkSystem g (Dist_copy p wl (Datatypes.S wl) (Z.of_nat k)
                   :: replicate N Continue_wait))
| run_inv_drain g i cs :
    quiet N g → concluded wl (generations p w0 (turn_limit p)) g →
    waiters_of (generations p w0 (turn_limit p)) cs → length cs = N →
    (served cs + in_flight g = i)%nat → (i ≤ N)%nat →
    run_inv p w0 N wl (2 + 2 * turn_limit p + i + served cs)
      (mkSystem g (Dist_final_send wl (Z.of_nat i) :: cs))
| run_inv_return g cs :
    NUMBEROFCONTINUES g = 0 →
    concluded wl (generations p w0 (turn_limit p)) g →
    waiters_of (generations p w0 (turn_limit p)) cs → length cs = N →
    (served cs + in_flight g = N)%nat →
    run_inv p w0 N wl (3 + 2 * turn_limit p + N + served cs)
      (mkSystem g (Start_return wl :: cs))
| run_inv_done g cs :
    NUMBEROFCONTINUES g = 0 →
    concluded wl (generations p w0 (turn_limit p)) g →
    waiters_of (generations p w0 (turn_limit p)) cs → length cs = N →
    (served cs + in_flight g = N)%nat →
    run_inv p w0 N wl (4 + 2 * turn_limit p + N + served cs)
      (mkSystem g (Done (RWorld (generations p w0 (turn_limit p))) :: cs)).

(** The state such a run ends in: [Start] and every waiter have returned
    [final], Progress is reset and no waiter is registered. *)
Definition run_completed (N : nat) (final : grid) (s : system) : Prop :=
  pool s = Done (RWorld final) :: replicate N (Done (RWorld final)) ∧
  ALIVECELLS (globals s) = 0 ∧ COMPLETEDTURNS (globals s) = 0 ∧
  NUMBEROFCONTINUES (globals s) = 0 ∧
  FINISHEDCHANNEL (globals s) = None.

(** A call of [Start] on the sample beside one registered waiter, and a
    schedule that runs both to their end. *)
Definition sample_start : system :=
  mkSystem (with_NUMBEROFCONTINUES 1 init_globals)
    [Start_entry sample_params sample_world; Continue_wait].

Definition sample_schedule : list (nat * nat) :=
  [(0, 0); (0, 0); (0, 0); (0, 0); (0, 0); (0, 0); (0, 0);
   (1, 0); (0, 0); (0, 0)]%nat.

(** ** Cancellation *)


(** The state a cancellation ends in. *)
Definition cancel_completed (N : nat) (w : grid) (s : system) : Prop :=
  pool s = Done (RWorld w) :: Done (RBool false)
           :: replicate N (Done (RWorld w)) ∧
  ALIVECELLS (globals s) = 0 ∧ COMPLETEDTURNS (globals s) = 0 ∧
  NUMBEROFCONTINUES (globals s) = 0 ∧
  FINISHEDCHANNEL (globals s) = None ∧
  DONECANCELINGCHANNEL (globals s) = None.


(** A loop about to start its third turn of five on an empty 3 x 3 grid,
    with a cancel signal pending, the call that sent it and one waiter;
    and a schedule that runs the three to their end. *)
Definition sample_cancel : system :=
  mkSystem
    (mkGlobals [sample_temp; sample_temp] (Some 0%nat) (mkParams 5 1 3 3)
       0 2 None None (Some true) 1 None)
    [Dist_head (mkParams 5 1 3 3) 0 1 2; IsAlreadyRunning_wait;
     Continue_wait].

Definition sample_cancel_schedule : list (nat * nat) :=
  [(0, 0); (0, 0); (2, 0); (0, 0); (0, 0); (1, 0); (0, 0)]%nat.

(** ** Calls other than [Start] *)

(** The thread is a call of [Start], at any point before its reply. *)
Definition is_start_thread (t : thread) : bool :=
  match t with
  | Start_entry _ _ | Dist_head _ _ _ _ | Dist_copy _ _ _ _
  | Dist_paused _ _ _ _ | Dist_cancel_send _ _ | Dist_cancel_done _
  | Dist_final_send _ _ | Start_return _ => true
  | _ => false
  end.

(** The thread is inside the loop of a run: the run is active. *)
Definition run_active (t : thread) : bool :=
  match t with
  | Dist_head _ _ _ _ | Dist_copy _ _ _ _ | Dist_paused _ _ _ _ => true
  | _ => false
  end.

(** What [Save], [Pause], [Execute] and [GetAliveCells] publish. *)
Definition snapshot (g : Globals) : Z * Z * grid :=
  (ALIVECELLS g, COMPLETEDTURNS g, deref g (WORLD g)).

(** Either the process has panicked, or a run is active, or
    [COMPLETEDTURNS] is zero. *)
Definition idle_or_counting (s : system) : Prop :=
  Panicked ∈ pool s ∨
  Exists (λ t, run_active t = true) (pool s) ∨
  COMPLETEDTURNS (globals s) = 0.

(** A call of [Start] on the sample and a call of [IsAlreadyRunning] with
    the same parameters. *)
Definition sample_query : system :=
  mkSystem init_globals
    [Start_entry sample_params sample_world;
     IsAlreadyRunning_entry sample_params].

(** ** Pausing *)

(** Thread [i] is the loop, blocked in the pause case. *)
Definition paused_at (i : nat) (s : system) : Prop :=
  ∃ p wl tl k, pool s !! i = Some (Dist_paused p wl tl k).

(** No other thread of the pool is a call of [Start]. *)
Definition sole_loop (i : nat) (ts : list thread) : Prop :=
  ∀ j t, j ≠ i → ts !! j = Some t → is_start_thread t = false.

(** A step of the engine after which thread [i] is still paused. *)
Definition paused_step (i : nat) (s s' : system) : Prop :=
  engine_step s s' ∧ paused_at i s'.

(** A run of five turns on the sample, with a status query, a call of
    [Pause] and a call of [Save]. *)
Definition sample_pause : system :=
  mkSystem init_globals
    [Start_entry (mkParams 5 1 3 3) sample_world;
     GetAliveCells_entry; Pause_entry; Save_entry].

(** The first generation is published and the second is computed but not
    yet copied back when the status is queried and [Pause] is called;
    the loop then finishes the generation and takes the pause case. *)
Definition sample_pause_schedule : list (nat * nat) :=
  [(0, 0); (0, 0); (0, 0); (0, 0);
   (1, 0); (2, 0); (2, 0);
   (0, 0); (0, 0)]%nat.

Definition sample_paused : system :=
  Eval vm_compute in
    default sample_pause (run sample_pause_schedule sample_pause).

Definition sample_alive : grid :=
  [[255; 255; 255]; [255; 255; 255]; [255; 255; 255]].

(** A call of [Start] on the sample, alone. *)
Definition sample_single : system :=
  mkSystem init_globals [Start_entry sample_params sample_world].

(** ** Further properties: the stepper *)

(** Every cell is dead. *)
Definition all_dead (w : grid) : Prop := Forall (Forall (λ c, c = 0)) w.

(** A 3 x 3 grid some cells of which are neither 0 nor 255. *)
Definition sample_bytes : grid :=
  [[0; 7; 0]; [0; 255; 0]; [0; 1; 0]].

(** ** Further properties: the coordinator *)

(** Globals in which a run on the sample is at the head of its first
    turn. *)
Definition sample_loop_globals : Globals :=
  mkGlobals [sample_world; sample_temp] None sample_params
    0 0 None None None 0 None.

(** A loop that has made its two turns, with a cancel signal pending and
    its sender waiting for the confirmation. *)
Definition sample_late_cancel : system :=
  mkSystem
    (mkGlobals [sample_temp; sample_temp] (Some 0%nat) sample_params
       0 2 None None (Some true) 0 None)
    [Dist_head sample_params 0 1 2; IsAlreadyRunning_wait].

(** ** The controller ([controller/gol/gol.go])

    The controller's [Params] is the engine's, field by field. *)

(** [util.Cell], of the skeleton's [util] package, which is not part of
    the sources at hand: a pair of coordinates. *)
Record Cell := mkCell {
  X : Z;
  Y : Z
}.

Global Instance Cell_eq_dec : EqDecision Cell.
Proof. solve_decision. Defined.

Definition getAliveCells (p : Params) (world : grid) : option (list Cell) :=
  for_upto 0 (ImageHeight p) (λ y finalAliveCells,
    for_upto 0 (ImageWidth p) (λ x finalAliveCells,
      c ← get_cell world y x;
      if decide (c = 255) then Some (finalAliveCells ++ [mkCell x y])
      else Some finalAliveCells) finalAliveCells) [].

(** The commands of the io goroutine ([io.go], not part of the sources at
    hand), as the controller names them. *)
Inductive ioCommand :=
| ioOutput
| ioInput
| ioCheckIdle.

(** What a controller function does on the channels of
    [distributorChannels], in order. Every channel is unbuffered: an
    action is a completed rendezvous. *)
Inductive action :=
| Send_ioCommand (c : ioCommand)
| Send_ioFilename (name : string)
| Send_ioOutput (b : Z)
| Recv_ioIdle
| Send_ImageOutputComplete (turn : Z) (name : string).

(** [fmt.Sprintf("%dx%dx%d", p.ImageHeight, p.ImageWidth, turn)]. *)
Definition output_name (p : Params) (turn : Z) : string :=
  pretty (ImageHeight p) +:+ "x" +:+ pretty (ImageWidth p) +:+ "x"
    +:+ pretty turn.

(** [fmt.Sprintf("%dx%d", p.ImageHeight, p.ImageWidth)]. *)
Definition input_name (p : Params) : string :=
  pretty (ImageHeight p) +:+ "x" +:+ pretty (ImageWidth p).

(** The actions of [outputPGM(world, c, p, turn)]; [None] when an index
    panics. *)
Definition outputPGM (world : grid) (p : Params) (turn : Z)
  : option (list action) :=
  let outputFileName := output_name p turn in
  sent ← for_upto 0 (ImageHeight p) (λ y sent,
            for_upto 0 (ImageWidth p) (λ x sent,
              b ← get_cell world y x;
              Some (sent ++ [Send_ioOutput b])) sent)
          [Send_ioCommand ioOutput; Send_ioFilename outputFileName];
  Some (sent ++ [Send_ioCommand ioCheckIdle; Recv_ioIdle;
                 Send_ImageOutputComplete turn outputFileName]).

(** The start of [engine]: the world is allocated and, unless a run is
    already going on, read byte by byte from [c.ioInput]. The input is
    what the io goroutine will send; the result is the world, the actions
    on the other channels and the input left. [None] when [make] panics or
    when the input runs out, the receive then blocking for ever. *)
Definition load_world (p : Params) (isAlreadyRunning : bool)
    (input : list Z) : option (grid * list action * list Z) :=
  world ← make_grid p;
  if isAlreadyRunning then Some (world, [], input)
  else
    '(world, input) ←
      for_upto 0 (ImageHeight p) (λ y st,
        for_upto 0 (ImageWidth p) (λ x '(world, input),
          match input with
          | b :: input => world ← set_cell world y x b; Some (world, input)
          | [] => None
          end) st) (world, input);
    Some (world, [Send_ioCommand ioInput; Send_ioFilename (input_name p)],
          input).

(** The bytes sent on [c.ioOutput]. *)
Definition output_bytes (sent : list action) : list Z :=
  omap (λ a, match a with Send_ioOutput b => Some b | _ => None end) sent.

(** * Properties *)

(** ** Arithmetic *)

Lemma wrap_small z : - 2 ^ 63 ≤ z < 2 ^ 63 → wrap z = z.
Proof.
  intros Hz. unfold wrap.
  rewrite Z.mod_small by lia. lia.
Qed.

Lemma int_add_small a b : - 2 ^ 63 ≤ a + b < 2 ^ 63 → int_add a b = a + b.
Proof. apply wrap_small. Qed.

Lemma mod_int_torus c o m :
  0 < m ≤ max_alloc → 0 ≤ c < m → -1 ≤ o ≤ 1 →
  mod_int (int_add c o) m = Some ((c + o) `mod` m) ∧ 0 ≤ (c + o) `mod` m < m.
Proof.
  unfold max_alloc. intros Hm Hc Ho.
  assert (2 ^ 48 < 2 ^ 62) by (by apply Z.pow_lt_mono_r).
  assert (2 ^ 62 + 2 ^ 62 = 2 ^ 63) by (by vm_compute).
  unfold mod_int. rewrite decide_False by lia.
  rewrite (int_add_small c o) by lia.
  rewrite int_add_small by lia.
  split; [| apply Z.mod_pos_bound; lia].
  f_equal. rewrite Z.rem_mod_nonneg by lia.
  replace (c + o + m) with (c + o + 1 * m) by lia.
  apply Z.mod_add. lia.
Qed.

(** ** Indexing *)

Lemma index_nat {A} (l : list A) (n : nat) : index l (Z.of_nat n) = l !! n.
Proof.
  unfold index. rewrite decide_True by lia. by rewrite Nat2Z.id.
Qed.

Lemma index_Some {A} (l : list A) i a :
  index l i = Some a ↔ 0 ≤ i ∧ l !! Z.to_nat i = Some a.
Proof.
  unfold index. case_decide; [intuition | split; [done | intros [? ?]; lia]].
Qed.

Lemma index_in_range {A} (l : list A) i :
  is_Some (index l i) ↔ 0 ≤ i < Z.of_nat (length l).
Proof.
  unfold index. case_decide.
  - rewrite lookup_lt_is_Some. lia.
  - split; [by intros [? ?] | lia].
Qed.

Lemma index_insert_eq {A} (l : list A) i a :
  0 ≤ i → (Z.to_nat i < length l)%nat →
  index (<[Z.to_nat i := a]> l) i = Some a.
Proof.
  intros Hi Hl. apply index_Some. by rewrite list_lookup_insert_eq.
Qed.

Lemma index_insert_ne {A} (l : list A) i j a :
  0 ≤ i → j ≠ i → index (<[Z.to_nat i := a]> l) j = index l j.
Proof.
  intros Hi Hne. unfold index. case_decide; [| done].
  apply list_lookup_insert_ne. lia.
Qed.

Lemma get_cell_nat (w : grid) (y x : nat) :
  get_cell w (Z.of_nat y) (Z.of_nat x) = w !! y ≫= (.!! x).
Proof.
  unfold get_cell. rewrite index_nat.
  destruct (w !! y) as [row|]; simpl; [apply index_nat | done].
Qed.

Lemma get_cell_Some (w : grid) y x c :
  get_cell w y x = Some c ↔
  0 ≤ y ∧ 0 ≤ x ∧ ∃ row, w !! Z.to_nat y = Some row ∧ row !! Z.to_nat x = Some c.
Proof.
  unfold get_cell. split.
  - intros H. apply bind_Some in H as (row & Hr & Hc).
    apply index_Some in Hr as [? ?], Hc as [? ?]. eauto 6.
  - intros (Hy & Hx & row & Hr & Hc). apply bind_Some. exists row.
    by rewrite !index_Some.
Qed.

Lemma has_dims_row p (w : grid) y row :
  has_dims p w → w !! y = Some row → Z.of_nat (length row) = ImageWidth p.
Proof.
  intros (_ & Hw & _) Hr. rewrite Forall_lookup in Hw. eauto.
Qed.

Lemma get_cell_in_range p (w : grid) y x :
  has_dims p w → 0 ≤ y < ImageHeight p → 0 ≤ x < ImageWidth p →
  is_Some (get_cell w y x).
Proof.
  intros Hd Hy Hx.
  destruct (lookup_lt_is_Some_2 w (Z.to_nat y)) as [row Hr].
  { destruct Hd as (Hh & _). lia. }
  pose proof (has_dims_row _ _ _ _ Hd Hr).
  destruct (lookup_lt_is_Some_2 row (Z.to_nat x)) as [c Hc]; [lia |].
  exists c. apply get_cell_Some. split_and!; [lia | lia | by exists row].
Qed.

Lemma get_cell_out_of_range p (w : grid) y x :
  has_dims p w → ¬ (0 ≤ y < ImageHeight p ∧ 0 ≤ x < ImageWidth p) →
  get_cell w y x = None.
Proof.
  intros Hd Hn. apply eq_None_not_Some. intros [c Hc].
  apply get_cell_Some in Hc as (Hy & Hx & row & Hr & Hc).
  pose proof (has_dims_row _ _ _ _ Hd Hr).
  apply lookup_lt_Some in Hr, Hc. destruct Hd as (Hh & _). lia.
Qed.

Lemma binary_cell (w : grid) y x c :
  binary w → get_cell w y x = Some c → c = 0 ∨ c = 255.
Proof.
  intros Hb Hc. apply get_cell_Some in Hc as (_ & _ & row & Hr & Hc).
  unfold binary in Hb. rewrite Forall_lookup in Hb.
  specialize (Hb _ _ Hr). rewrite Forall_lookup in Hb. eauto.
Qed.

(** The row lengths of a grid. *)
Lemma has_dims_shape p (a b : grid) :
  length <$> a = length <$> b → has_dims p a → has_dims p b.
Proof.
  intros Hs (Hh & Hw & Hm). split_and!; [| | done].
  - rewrite <- Hh. f_equal.
    by rewrite <- (length_fmap length a), Hs, length_fmap.
  - rewrite Forall_lookup. intros i row Hr.
    assert ((length <$> a) !! i = Some (length row)) as Ha.
    { rewrite Hs, list_lookup_fmap, Hr. done. }
    rewrite list_lookup_fmap in Ha.
    destruct (a !! i) as [row'|] eqn:Hr'; [| done].
    simpl in Ha. injection Ha as <-.
    rewrite Forall_lookup in Hw. eauto.
Qed.

Lemma grid_ext (a b : grid) :
  length <$> a = length <$> b →
  (∀ y x : nat, get_cell a (Z.of_nat y) (Z.of_nat x)
                = get_cell b (Z.of_nat y) (Z.of_nat x)) →
  a = b.
Proof.
  intros Hs Hc. apply list_eq. intros y.
  assert ((length <$> a) !! y = (length <$> b) !! y) as Hy by by rewrite Hs.
  rewrite !list_lookup_fmap in Hy.
  destruct (a !! y) as [ra|] eqn:Ha, (b !! y) as [rb|] eqn:Hb; try done.
  simpl in Hy. injection Hy as Hl.
  f_equal. apply list_eq. intros x.
  specialize (Hc y x). rewrite !get_cell_nat, Ha, Hb in Hc. done.
Qed.

Lemma set_cell_Some (t : grid) y x v :
  is_Some (get_cell t y x) →
  ∃ t', set_cell t y x v = Some t' ∧
        length <$> t' = length <$> t ∧
        get_cell t' y x = Some v ∧
        ∀ y' x', (y', x') ≠ (y, x) → get_cell t' y' x' = get_cell t y' x'.
Proof.
  intros [c Hc]. apply get_cell_Some in Hc as (Hy & Hx & row & Hr & Hc).
  pose proof (lookup_lt_Some _ _ _ Hr) as Hly.
  pose proof (lookup_lt_Some _ _ _ Hc) as Hlx.
  unfold set_cell.
  assert (index t y = Some row) as -> by by apply index_Some.
  simpl.
  assert (index row x = Some c) as -> by by apply index_Some.
  simpl. eexists. split; [done |]. split_and!.
  - rewrite list_fmap_insert, length_insert.
    apply list_insert_id. by rewrite list_lookup_fmap, Hr.
  - apply get_cell_Some. split_and!; [done.. |].
    eexists. rewrite list_lookup_insert_eq by done. split; [done |].
    by rewrite list_lookup_insert_eq.
  - intros y' x' Hne. unfold get_cell.
    destruct (decide (y' = y)) as [->|Hney].
    + rewrite index_insert_eq, (proj2 (index_Some t y row)) by done. simpl.
      apply index_insert_ne; [done | congruence].
    + by rewrite index_insert_ne.
Qed.

(** ** Loops *)

Lemma for_range_inv {S} (I : Z → S → Prop) (body : Z → S → option S) n :
  ∀ lo s,
  I lo s →
  (∀ k s, lo ≤ k < lo + Z.of_nat n → I k s →
          ∃ s', body k s = Some s' ∧ I (k + 1) s') →
  ∃ s', for_range body lo n s = Some s' ∧ I (lo + Z.of_nat n) s'.
Proof.
  induction n as [|n IH]; intros lo s H0 Hstep; simpl.
  - exists s. by rewrite Z.add_0_r.
  - destruct (Hstep lo s) as (s1 & -> & H1); [lia | done |]. simpl.
    destruct (IH (lo + 1) s1) as (s' & Hs' & HI); [done | |].
    { intros k s2 Hk. apply Hstep. lia. }
    exists s'. split; [done |].
    by replace (lo + Z.of_nat (Datatypes.S n)) with (lo + 1 + Z.of_nat n) by lia.
Qed.

Lemma for_upto_inv {S} (I : Z → S → Prop) (body : Z → S → option S) lo hi s :
  lo ≤ hi →
  I lo s →
  (∀ k s, lo ≤ k < hi → I k s → ∃ s', body k s = Some s' ∧ I (k + 1) s') →
  ∃ s', for_upto lo hi body s = Some s' ∧ I hi s'.
Proof.
  intros Hle H0 Hstep. unfold for_upto.
  destruct (for_range_inv I body (Z.to_nat (hi - lo)) lo s) as (s' & ? & HI);
    [done | |].
  { intros k s1 Hk. apply Hstep. lia. }
  exists s'. split; [done |].
  by replace (lo + Z.of_nat (Z.to_nat (hi - lo))) with hi in HI by lia.
Qed.

Lemma for_upto_empty {S} (body : Z → S → option S) lo hi s :
  hi ≤ lo → for_upto lo hi body s = Some s.
Proof.
  intros Hle. unfold for_upto.
  by replace (Z.to_nat (hi - lo)) with O by lia.
Qed.

(** ** Counting neighbours *)

(** The cell one neighbour test of [aliveNeighbours] reads. *)
Lemma neighbour_read p (w : grid) y x i j :
  has_dims p w → 0 ≤ y < ImageHeight p → 0 ≤ x < ImageWidth p →
  -1 ≤ i ≤ 1 → -1 ≤ j ≤ 1 →
  ∃ c, mod_int (int_add y i) (ImageHeight p) = Some ((y + i) `mod` ImageHeight p) ∧
       mod_int (int_add x j) (ImageWidth p) = Some ((x + j) `mod` ImageWidth p) ∧
       get_cell w ((y + i) `mod` ImageHeight p) ((x + j) `mod` ImageWidth p)
         = Some c.
Proof.
  intros Hd Hy Hx Hi Hj.
  assert (0 < ImageHeight p ≤ max_alloc ∧ 0 < ImageWidth p ≤ max_alloc)
    as [Hh Hw].
  { destruct Hd as (_ & _ & Hm). unfold max_alloc in *. nia. }
  destruct (mod_int_torus y i _ Hh Hy Hi) as [-> Hyi].
  destruct (mod_int_torus x j _ Hw Hx Hj) as [-> Hxj].
  destruct (get_cell_in_range p w _ _ Hd Hyi Hxj) as [c Hc].
  by exists c.
Qed.

Lemma for_range_three {S} (body : Z → S → option S) i s :
  for_range body i 3 s
  = s1 ← body i s; s2 ← body (i + 1) s1; body (i + 1 + 1) s2.
Proof.
  simpl. destruct (body i s) as [s1|]; simpl; [| done].
  destruct (body (i + 1) s1) as [s2|]; simpl; [| done].
  by destruct (body (i + 1 + 1) s2).
Qed.

Lemma neighbour_bit_range p w y x i j : 0 ≤ neighbour_bit p w y x i j ≤ 1.
Proof.
  unfold neighbour_bit. case_decide; [| lia].
  by destruct (nonzero _ _).
Qed.

Section neighbours.
Context (p : Params) (w : grid) (y x : Z).
Hypothesis Hd : has_dims p w.
Hypothesis Hy : 0 ≤ y < ImageHeight p.
Hypothesis Hx : 0 ≤ x < ImageWidth p.

Lemma visit_bit i j n :
  -1 ≤ i ≤ 1 → -1 ≤ j ≤ 1 → 0 ≤ n ≤ 8 →
  visit_neighbour p w y x i j n = Some (n + neighbour_bit p w y x i j).
Proof using Hd Hy Hx.
  intros Hi Hj Hn. unfold visit_neighbour, neighbour_bit.
  case_decide; [| f_equal; lia].
  destruct (neighbour_read p w y x i j) as (c & -> & -> & Hc); [done.. |].
  simpl. rewrite Hc. simpl.
  unfold nonzero, torus_neighbour. simpl. rewrite Hc.
  destruct (decide (c ≠ 0)) as [Hne|He].
  - rewrite bool_decide_eq_true_2 by exact Hne. simpl.
    rewrite int_add_small; [done |].
    assert (2 ^ 4 < 2 ^ 63) by (by apply Z.pow_lt_mono_r).
    change (2 ^ 4) with 16 in *. lia.
  - rewrite bool_decide_eq_false_2 by exact He. simpl. f_equal. lia.
Qed.

Lemma visit_row i n :
  -1 ≤ i ≤ 1 → 0 ≤ n ≤ 5 →
  for_upto (-1) 2 (visit_neighbour p w y x i) n
  = Some (n + neighbour_bit p w y x i (-1) + neighbour_bit p w y x i 0
            + neighbour_bit p w y x i 1).
Proof using Hd Hy Hx.
  intros Hi Hn. unfold for_upto.
  change (Z.to_nat (2 - -1)) with 3%nat.
  rewrite for_range_three.
  change (-1 + 1) with 0. change (0 + 1) with 1.
  pose proof (neighbour_bit_range p w y x i (-1)).
  pose proof (neighbour_bit_range p w y x i 0).
  rewrite visit_bit by lia. simpl.
  rewrite visit_bit by lia. simpl.
  rewrite visit_bit by lia. done.
Qed.

Lemma aliveNeighbours_bits :
  aliveNeighbours w y x p
  = Some (neighbour_bit p w y x (-1) (-1) + neighbour_bit p w y x (-1) 0
          + neighbour_bit p w y x (-1) 1 + neighbour_bit p w y x 0 (-1)
          + neighbour_bit p w y x 0 1 + neighbour_bit p w y x 1 (-1)
          + neighbour_bit p w y x 1 0 + neighbour_bit p w y x 1 1).
Proof using Hd Hy Hx.
  unfold aliveNeighbours.
  change (for_upto (-1) 2
            (λ i n, for_upto (-1) 2 (visit_neighbour p w y x i) n) 0 = Some
    (neighbour_bit p w y x (-1) (-1) + neighbour_bit p w y x (-1) 0
     + neighbour_bit p w y x (-1) 1 + neighbour_bit p w y x 0 (-1)
     + neighbour_bit p w y x 0 1 + neighbour_bit p w y x 1 (-1)
     + neighbour_bit p w y x 1 0 + neighbour_bit p w y x 1 1)).
  unfold for_upto at 1.
  change (Z.to_nat (2 - -1)) with 3%nat.
  rewrite for_range_three.
  change (-1 + 1) with 0. change (0 + 1) with 1.
  pose proof (neighbour_bit_range p w y x (-1) (-1)).
  pose proof (neighbour_bit_range p w y x (-1) 0).
  pose proof (neighbour_bit_range p w y x (-1) 1).
  pose proof (neighbour_bit_range p w y x 0 (-1)).
  pose proof (neighbour_bit_range p w y x 0 1).
  assert (neighbour_bit p w y x 0 0 = 0) as H00.
  { unfold neighbour_bit. rewrite decide_False; [done | lia]. }
  rewrite visit_row by lia. simpl.
  rewrite visit_row by lia. simpl.
  rewrite visit_row by lia. f_equal. lia.
Qed.

Lemma aliveNeighbours_nonzero :
  aliveNeighbours w y x p = Some (nonzero_neighbour_count p w y x).
Proof using Hd Hy Hx.
  rewrite aliveNeighbours_bits. f_equal.
  unfold nonzero_neighbour_count, offsets, neighbour_bit.
  rewrite !decide_True by lia.
  rewrite !filter_cons, filter_nil.
  repeat (destruct (nonzero w _); simpl); reflexivity.
Qed.
End neighbours.

(** On a grid of 0s and 255s a cell is non-zero exactly when it is alive. *)
Lemma nonzero_alive (w : grid) yx : binary w → nonzero w yx = alive w yx.
Proof.
  intros Hb. unfold nonzero, alive.
  destruct (get_cell w yx.1 yx.2) as [c|] eqn:Hc; [| done].
  destruct (binary_cell _ _ _ _ Hb Hc) as [-> | ->]; done.
Qed.

Lemma aliveNeighbours_count p (w : grid) y x :
  well_formed p w → 0 ≤ y < ImageHeight p → 0 ≤ x < ImageWidth p →
  aliveNeighbours w y x p = Some (alive_neighbour_count p w y x).
Proof.
  intros [Hd Hb] Hy Hx. rewrite aliveNeighbours_nonzero by done.
  unfold nonzero_neighbour_count, alive_neighbour_count. do 3 f_equal.
  apply list_filter_iff. intros o. by rewrite nonzero_alive.
Qed.

(** ** The two pairs of loops *)

(** A pair of loops that stores [f y x] in every cell. *)
Lemma fill_loops p (body : Z → Z → grid → option grid) (f : Z → Z → Z)
    (t : grid) :
  has_dims p t →
  (∀ y x t', 0 ≤ y < ImageHeight p → 0 ≤ x < ImageWidth p →
             body y x t' = set_cell t' y x (f y x)) →
  ∃ t', for_upto 0 (ImageHeight p) (λ y t,
          for_upto 0 (ImageWidth p) (λ x t, body y x t) t) t = Some t' ∧
        length <$> t' = length <$> t ∧
        ∀ y x, 0 ≤ y < ImageHeight p → 0 ≤ x < ImageWidth p →
               get_cell t' y x = Some (f y x).
Proof.
  intros Hd Hbody.
  pose (filled (y : Z) (t' : grid) :=
    length <$> t' = length <$> t ∧
    ∀ y' x', 0 ≤ y' < y → 0 ≤ x' < ImageWidth p →
             get_cell t' y' x' = Some (f y' x')).
  destruct (for_upto_inv filled
    (λ y t, for_upto 0 (ImageWidth p) (λ x t, body y x t) t)
    0 (ImageHeight p) t) as (t' & Ht' & Hs & Hf).
  - destruct Hd as (Hh & _). lia.
  - split; [done |]. intros; lia.
  - intros y t1 Hy [Hs1 Hf1].
    assert (0 ≤ ImageWidth p) as Hw.
    { destruct (lookup_lt_is_Some_2 t (Z.to_nat y)) as [row Hr].
      - destruct Hd as (Hh & _). lia.
      - rewrite <- (has_dims_row _ _ _ _ Hd Hr). lia. }
    pose (row_filled (x : Z) (t' : grid) :=
      filled y t' ∧
      ∀ x', 0 ≤ x' < x → get_cell t' y x' = Some (f y x')).
    destruct (for_upto_inv row_filled (λ x t, body y x t)
      0 (ImageWidth p) t1) as (t2 & Ht2 & [Hs2 Hf2] & Hr2).
    + done.
    + split; [done |]. intros; lia.
    + intros x t2 Hx [[Hs2 Hf2] Hr2].
      rewrite Hbody by done.
      destruct (set_cell_Some t2 y x (f y x)) as (t3 & -> & Hs3 & Hg & Ho).
      { eapply get_cell_in_range; [| done..].
        eapply has_dims_shape; [| done]. congruence. }
      exists t3. split; [done |]. split; [split |].
      * congruence.
      * intros y' x' Hy' Hx'. rewrite Ho; [by apply Hf2 |].
        intros [= -> ->]. lia.
      * intros x' Hx'. destruct (decide (x' = x)) as [-> | Hne]; [done |].
        rewrite Ho; [apply Hr2; lia | congruence].
    + exists t2. split; [done |]. split; [done |].
      intros y' x' Hy' Hx'.
      destruct (decide (y' = y)) as [-> | Hne]; [by apply Hr2 |].
      apply Hf2; lia.
  - exists t'. done.
Qed.

Lemma next_grid_shape p (w : grid) : length <$> next_grid p w = length <$> w.
Proof.
  unfold next_grid. apply list_eq. intros y.
  rewrite !list_lookup_fmap, list_lookup_imap.
  destruct (w !! y) as [row|]; [| done]. simpl.
  by rewrite length_imap.
Qed.

Lemma next_grid_cell p (w : grid) (y x : nat) :
  get_cell (next_grid p w) (Z.of_nat y) (Z.of_nat x)
  = c ← get_cell w (Z.of_nat y) (Z.of_nat x);
    Some (next_cell c (nonzero_neighbour_count p w (Z.of_nat y) (Z.of_nat x))).
Proof.
  rewrite !get_cell_nat. unfold next_grid.
  rewrite list_lookup_imap.
  destruct (w !! y) as [row|]; [| done]. simpl.
  rewrite list_lookup_imap. by destruct (row !! x).
Qed.

Lemma compute_temp_next p (w t : grid) :
  has_dims p w → length <$> t = length <$> w →
  compute_temp p w t = Some (next_grid p w).
Proof.
  intros Hd Hs.
  pose (f (y x : Z) :=
    next_cell (default 0 (get_cell w y x)) (nonzero_neighbour_count p w y x)).
  destruct (fill_loops p
    (λ y x t, numAliveNeighbours ← aliveNeighbours w y x p;
              c ← get_cell w y x;
              set_cell t y x (next_cell c numAliveNeighbours)) f t)
    as (t' & Ht' & Hs' & Hf).
  - eapply has_dims_shape; [| done]. done.
  - intros y x t' Hy Hx. rewrite aliveNeighbours_nonzero by done. simpl.
    destruct (get_cell_in_range p w y x) as [c Hc]; [done.. |].
    unfold f. by rewrite Hc.
  - unfold compute_temp. rewrite Ht'. f_equal.
    apply grid_ext; [by rewrite next_grid_shape, Hs', Hs |].
    intros y x. rewrite next_grid_cell.
    destruct (decide (Z.of_nat y < ImageHeight p ∧ Z.of_nat x < ImageWidth p))
      as [[Hy Hx] | Hout].
    + rewrite Hf by lia. unfold f.
      destruct (get_cell_in_range p w (Z.of_nat y) (Z.of_nat x))
        as [c Hc]; [done | lia.. |].
      by rewrite Hc.
    + rewrite (get_cell_out_of_range p w) by (done || lia). simpl.
      apply (get_cell_out_of_range p); [| lia].
      eapply has_dims_shape; [| done]. by rewrite Hs', Hs.
Qed.

Lemma copy_back_all p (w t : grid) :
  has_dims p t → length <$> w = length <$> t →
  copy_back p w t = Some t.
Proof.
  intros Hd Hs.
  pose (f (y x : Z) := default 0 (get_cell t y x)).
  destruct (fill_loops p
    (λ y x w, v ← get_cell t y x; set_cell w y x v) f w)
    as (w' & Hw' & Hs' & Hf).
  - eapply has_dims_shape; [| done]. done.
  - intros y x w' Hy Hx.
    destruct (get_cell_in_range p t y x) as [c Hc]; [done.. |].
    unfold f. by rewrite Hc.
  - unfold copy_back. rewrite Hw'. f_equal.
    apply grid_ext; [by rewrite Hs', Hs |].
    intros y x.
    destruct (decide (Z.of_nat y < ImageHeight p ∧ Z.of_nat x < ImageWidth p))
      as [[Hy Hx] | Hout].
    + rewrite Hf by lia. unfold f.
      destruct (get_cell_in_range p t (Z.of_nat y) (Z.of_nat x))
        as [c Hc]; [done | lia.. |].
      by rewrite Hc.
    + rewrite (get_cell_out_of_range p t) by (done || lia).
      apply (get_cell_out_of_range p); [| lia].
      eapply has_dims_shape; [| done]. by rewrite Hs', Hs.
Qed.

Lemma generation_next p (w t : grid) :
  has_dims p w → length <$> t = length <$> w →
  generation p w t = Some (next_grid p w, next_grid p w).
Proof.
  intros Hd Hs. unfold generation.
  rewrite compute_temp_next by done. simpl.
  rewrite copy_back_all; [done | |].
  - eapply has_dims_shape; [| done]. by rewrite next_grid_shape.
  - by rewrite next_grid_shape.
Qed.

(** ** Counting alive cells *)

Lemma count_alive_bound (w : grid) :
  0 ≤ count_alive w ≤ Z.of_nat (length (concat w)).
Proof.
  unfold count_alive. pose proof (length_filter (λ c, c = 255) (concat w)). lia.
Qed.

Lemma count_alive_snoc (w : grid) row :
  count_alive (w ++ [row]) = count_alive w + count_alive [row].
Proof.
  unfold count_alive. rewrite concat_app, list.filter_app, length_app. lia.
Qed.

Lemma count_alive_row_snoc (row : list Z) c :
  count_alive [row ++ [c]]
  = count_alive [row] + (if decide (c = 255) then 1 else 0).
Proof.
  unfold count_alive. simpl. rewrite !app_nil_r, list.filter_app, length_app.
  rewrite filter_cons, filter_nil. case_decide; simpl; lia.
Qed.

Lemma has_dims_cells p (w : grid) :
  has_dims p w →
  Z.of_nat (length (concat w)) = ImageHeight p * ImageWidth p.
Proof.
  intros (Hh & Hw & _). rewrite <- Hh. clear Hh.
  induction Hw as [|row w Hr Hw IH]; simpl; [lia |].
  rewrite length_app. lia.
Qed.

Lemma getNumAliveCells_count p (w : grid) :
  has_dims p w → getNumAliveCells p w = Some (count_alive w).
Proof.
  intros Hd.
  assert (2 ^ 48 < 2 ^ 63) as Hpow by (by apply Z.pow_lt_mono_r).
  pose proof Hd as (Hh & Hw & Hm). unfold max_alloc in Hm.
  pose (counted (y : Z) (n : Z) := n = count_alive (take (Z.to_nat y) w)).
  destruct (for_upto_inv counted
    (λ y aliveCellsNum,
      for_upto 0 (ImageWidth p) (λ x aliveCellsNum,
        c ← get_cell w y x;
        if decide (c = 255) then Some (int_add aliveCellsNum 1)
        else Some aliveCellsNum) aliveCellsNum)
    0 (ImageHeight p) 0) as (n & Hn & Hc).
  - lia.
  - done.
  - intros y n Hy ->.
    destruct (lookup_lt_is_Some_2 w (Z.to_nat y)) as [row Hr]; [lia |].
    pose proof (has_dims_row _ _ _ _ Hd Hr) as Hlen.
    pose (row_counted (x : Z) (n : Z) :=
      n = count_alive (take (Z.to_nat y) w)
          + count_alive [take (Z.to_nat x) row]).
    destruct (for_upto_inv row_counted
      (λ x aliveCellsNum,
        c ← get_cell w y x;
        if decide (c = 255) then Some (int_add aliveCellsNum 1)
        else Some aliveCellsNum)
      0 (ImageWidth p) (count_alive (take (Z.to_nat y) w)))
      as (n & Hn & Hc).
    + lia.
    + unfold row_counted. simpl. unfold count_alive at 3. simpl. lia.
    + intros x n Hx ->.
      destruct (lookup_lt_is_Some_2 row (Z.to_nat x)) as [c Hc]; [lia |].
      assert (get_cell w y x = Some c) as ->.
      { apply get_cell_Some. split_and!; [lia | lia | by exists row]. }
      simpl. unfold row_counted.
      replace (Z.to_nat (x + 1)) with (Datatypes.S (Z.to_nat x)) by lia.
      rewrite (take_S_r _ _ _ Hc), count_alive_row_snoc.
      case_decide; (eexists; split; [done |]); [| lia].
      rewrite int_add_small; [lia |].
      pose proof (count_alive_bound (take (Z.to_nat y) w)).
      pose proof (count_alive_bound [take (Z.to_nat x) row]).
      assert (Z.of_nat (length (concat (take (Z.to_nat y) w)))
              = y * ImageWidth p) as Hcells.
      { rewrite (has_dims_cells (mkParams 0 0 (ImageWidth p) y)); [done |].
        split_and!; simpl.
        - rewrite length_take. lia.
        - by apply Forall_take.
        - unfold max_alloc. nia. }
      simpl in *. rewrite app_nil_r, length_take in *. nia.
    + exists n. split; [done |]. unfold counted, row_counted in *. subst n.
      replace (Z.to_nat (y + 1)) with (Datatypes.S (Z.to_nat y)) by lia.
      rewrite (take_S_r _ _ _ Hr), count_alive_snoc.
      by rewrite (take_ge row) by lia.
  - unfold getNumAliveCells. rewrite Hn. f_equal.
    unfold counted in Hc. by rewrite take_ge in Hc by lia.
Qed.

Lemma count_alive_nonzero (w : grid) :
  binary w → count_alive w = count_nonzero w.
Proof.
  intros Hb. unfold count_alive, count_nonzero. do 2 f_equal.
  assert (Forall (λ c, c = 0 ∨ c = 255) (concat w)) as Hc.
  { by apply Forall_concat. }
  induction Hc as [|c l [-> | ->] _ IH]; [done | |].
  - rewrite !filter_cons. by rewrite !decide_False by done.
  - rewrite !filter_cons. rewrite !decide_True by done. by f_equal.
Qed.

(** ** The next grid *)

Lemma next_cell_binary c n : next_cell c n = 0 ∨ next_cell c n = 255.
Proof. unfold next_cell. repeat case_decide; auto. Qed.

Lemma next_grid_binary p (w : grid) : binary (next_grid p w).
Proof.
  unfold binary, next_grid. rewrite Forall_lookup. intros y row' Hy.
  rewrite list_lookup_imap in Hy.
  destruct (w !! y) as [row|]; [| done]. simpl in Hy. injection Hy as <-.
  rewrite Forall_lookup. intros x c Hx.
  rewrite list_lookup_imap in Hx.
  destruct (row !! x) as [c0|]; [| done]. simpl in Hx. injection Hx as <-.
  apply next_cell_binary.
Qed.

Lemma next_grid_dims p (w : grid) : has_dims p w → has_dims p (next_grid p w).
Proof. apply has_dims_shape. by rewrite next_grid_shape. Qed.

Lemma next_grid_well_formed p (w : grid) :
  has_dims p w → well_formed p (next_grid p w).
Proof. split; [by apply next_grid_dims | apply next_grid_binary]. Qed.

Lemma next_cell_rule c n :
  c = 0 ∨ c = 255 →
  next_cell c n = cell_of_bool (life_rule (bool_decide (c = 255)) n).
Proof.
  intros [-> | ->]; unfold next_cell, life_rule.
  - rewrite decide_False, bool_decide_eq_false_2 by done.
    by case_decide; case_bool_decide.
  - rewrite decide_True, bool_decide_eq_true_2 by done.
    by case_decide; case_bool_decide.
Qed.

Lemma next_grid_spec p (w : grid) :
  binary w → next_grid p w = spec_step p w.
Proof.
  intros Hb. unfold next_grid, spec_step.
  apply imap_ext. intros y row Hr. apply imap_ext. intros x c Hc. simpl.
  assert (get_cell w (Z.of_nat y) (Z.of_nat x) = Some c) as Hg.
  { rewrite get_cell_nat, Hr. done. }
  rewrite (next_cell_rule c); [| by eapply binary_cell].
  f_equal. f_equal.
  - unfold alive. simpl. rewrite Hg.
    apply bool_decide_ext. naive_solver.
  - unfold nonzero_neighbour_count, alive_neighbour_count. do 3 f_equal.
    apply list_filter_iff. intros o. by rewrite nonzero_alive.
Qed.

(** ** The stepper *)

Lemma sample_world_well_formed : well_formed sample_params sample_world.
Proof.
  unfold well_formed, has_dims, binary. split_and!.
  - reflexivity.
  - repeat first [apply Forall_nil_2 | apply Forall_cons_2]; reflexivity.
  - by vm_compute.
  - repeat first [apply Forall_nil_2 | apply Forall_cons_2]; auto.
Qed.

(** C1. For a grid of 0s and 255s and a cell (y, x) of it, one generation
    of the loop (its two pairs of loops, run on [world] and a [tempWorld] of
    the same shape) succeeds and leaves in the cell 255 or 0 by the rule
    over the count of alive cells among the eight neighbours at
    ((y + i) mod height, (x + j) mod width): an alive cell is alive
    afterwards iff the count is 2 or 3, a dead cell iff it is exactly 3,
    and a cell that is not alive afterwards is dead. *)
Theorem generation_follows_rule p (w t : grid) y x :
  well_formed p w → length <$> t = length <$> w →
  0 ≤ y < ImageHeight p → 0 ≤ x < ImageWidth p →
  ∃ w' t' c c',
    generation p w t = Some (w', t') ∧
    get_cell w y x = Some c ∧ get_cell w' y x = Some c' ∧
    (c' = 255 ∨ c' = 0) ∧
    (c = 255 → (c' = 255 ↔ alive_neighbour_count p w y x = 2
                            ∨ alive_neighbour_count p w y x = 3)) ∧
    (c = 0 → (c' = 255 ↔ alive_neighbour_count p w y x = 3)).
Proof.
  intros [Hd Hb] Hs Hy Hx.
  destruct (get_cell_in_range p w y x) as [c Hc]; [done.. |].
  exists (next_grid p w), (next_grid p w), c,
    (next_cell c (alive_neighbour_count p w y x)).
  split; [by apply generation_next |]. split; [done |].
  split.
  { replace y with (Z.of_nat (Z.to_nat y)) by lia.
    replace x with (Z.of_nat (Z.to_nat x)) by lia.
    rewrite next_grid_cell.
    replace (Z.of_nat (Z.to_nat y)) with y by lia.
    replace (Z.of_nat (Z.to_nat x)) with x by lia.
    rewrite Hc. simpl. do 2 f_equal.
    unfold nonzero_neighbour_count, alive_neighbour_count. do 2 f_equal.
    apply list_filter_iff. intros o. by rewrite nonzero_alive. }
  unfold next_cell. split_and!.
  - repeat case_decide; auto.
  - intros ->. rewrite decide_True by done. case_decide; lia.
  - intros ->. rewrite decide_False by done. case_decide; lia.
Qed.

Lemma generation_follows_rule_witness :
  ∃ w' t' c c',
    generation sample_params sample_world sample_temp = Some (w', t') ∧
    get_cell sample_world 1 0 = Some c ∧ get_cell w' 1 0 = Some c' ∧
    (c' = 255 ∨ c' = 0) ∧
    (c = 255 → (c' = 255 ↔ alive_neighbour_count sample_params sample_world 1 0 = 2
                            ∨ alive_neighbour_count sample_params sample_world 1 0 = 3)) ∧
    (c = 0 → (c' = 255 ↔ alive_neighbour_count sample_params sample_world 1 0 = 3)).
Proof.
  apply (generation_follows_rule sample_params sample_world sample_temp 1 0).
  - apply sample_world_well_formed.
  - reflexivity.
  - simpl; lia.
  - simpl; lia.
Defined.

(** C9. In a grid of [ImageHeight] rows of [ImageWidth] cells and at a
    cell (y, x) of it (so both extents are positive), every index the
    neighbour count computes, [mod(y+i, ImageHeight)] and
    [mod(x+j, ImageWidth)] for offsets i, j of -1, 0, 1, is computed
    without a division by zero and lies within [0, extent), the cell it
    names can be read, and the count itself returns without a panic. *)
Theorem aliveNeighbours_in_bounds p (w : grid) y x :
  has_dims p w → 0 ≤ y < ImageHeight p → 0 ≤ x < ImageWidth p →
  is_Some (aliveNeighbours w y x p) ∧
  ∀ i j, -1 ≤ i ≤ 1 → -1 ≤ j ≤ 1 →
    ∃ yy xx,
      mod_int (int_add y i) (ImageHeight p) = Some yy ∧
      mod_int (int_add x j) (ImageWidth p) = Some xx ∧
      0 ≤ yy < ImageHeight p ∧ 0 ≤ xx < ImageWidth p ∧
      is_Some (get_cell w yy xx).
Proof.
  intros Hd Hy Hx. split.
  - rewrite aliveNeighbours_nonzero by done. by eexists.
  - intros i j Hi Hj.
    destruct (neighbour_read p w y x i j) as (c & Hyy & Hxx & Hc); [done.. |].
    exists ((y + i) `mod` ImageHeight p), ((x + j) `mod` ImageWidth p).
    split; [done |]. split; [done |].
    split; [apply Z.mod_pos_bound; lia |].
    split; [apply Z.mod_pos_bound; lia |].
    by exists c.
Qed.

Lemma aliveNeighbours_in_bounds_witness :
  is_Some (aliveNeighbours sample_world 0 2 sample_params) ∧
  ∀ i j, -1 ≤ i ≤ 1 → -1 ≤ j ≤ 1 →
    ∃ yy xx,
      mod_int (int_add 0 i) (ImageHeight sample_params) = Some yy ∧
      mod_int (int_add 2 j) (ImageWidth sample_params) = Some xx ∧
      0 ≤ yy < ImageHeight sample_params ∧
      0 ≤ xx < ImageWidth sample_params ∧
      is_Some (get_cell sample_world yy xx).
Proof.
  apply (aliveNeighbours_in_bounds sample_params sample_world 0 2).
  - apply sample_world_well_formed.
  - simpl; lia.
  - simpl; lia.
Defined.

(** C10. One generation keeps a grid well formed: from a grid of
    [ImageHeight] x [ImageWidth] cells that are 0 or 255 it leaves a grid of
    the same dimensions whose cells are 0 or 255; and the count the loop
    then publishes, the cells equal to 255, is the number of cells that are
    not 0, the test the neighbour count uses. *)
Theorem generation_preserves_well_formed p (w t : grid) :
  well_formed p w → length <$> t = length <$> w →
  ∃ w' t',
    generation p w t = Some (w', t') ∧
    well_formed p w' ∧
    getNumAliveCells p w' = Some (count_nonzero w').
Proof.
  intros [Hd Hb] Hs. exists (next_grid p w), (next_grid p w).
  split; [by apply generation_next |].
  split; [by apply next_grid_well_formed |].
  rewrite getNumAliveCells_count by by apply next_grid_dims.
  f_equal. apply count_alive_nonzero, next_grid_binary.
Qed.

Lemma generation_preserves_well_formed_witness :
  ∃ w' t',
    generation sample_params sample_world sample_temp = Some (w', t') ∧
    well_formed sample_params w' ∧
    getNumAliveCells sample_params w' = Some (count_nonzero w').
Proof.
  apply (generation_preserves_well_formed
           sample_params sample_world sample_temp).
  - apply sample_world_well_formed.
  - reflexivity.
Defined.

(** ** Steps of the loop *)

Lemma default_compute_next g p wl tl turns (w t : grid) :
  heap g !! wl = Some w → heap g !! tl = Some t →
  has_dims p w → length <$> t = length <$> w →
  default_compute g p wl tl turns
  = (with_heap (<[tl := next_grid p w]> (heap g)) g, Dist_copy p wl tl turns).
Proof.
  intros Hw Ht Hd Hs. unfold default_compute. rewrite Hw, Ht. simpl.
  by rewrite compute_temp_next.
Qed.

Lemma default_publish_next g p wl tl turns (w t : grid) :
  heap g !! wl = Some w → heap g !! tl = Some t →
  has_dims p t → length <$> w = length <$> t →
  default_publish g p wl tl turns
  = (with_progress (count_alive t) (int_add turns 1)
       (with_WORLD (Some wl) (with_heap (<[wl := t]> (heap g)) g)),
     Dist_head p wl tl (turns + 1)).
Proof.
  intros Hw Ht Hd Hs. unfold default_publish. rewrite Hw, Ht. simpl.
  rewrite copy_back_all by done. simpl.
  by rewrite getNumAliveCells_count.
Qed.

Lemma generations_dims p (w : grid) k :
  has_dims p w → has_dims p (generations p w k).
Proof.
  intros Hd. induction k as [|k IH]; [done |].
  by apply next_grid_dims.
Qed.

Lemma generations_shape p (w : grid) k :
  length <$> generations p w k = length <$> w.
Proof.
  induction k as [|k IH]; [done |].
  simpl. by rewrite next_grid_shape.
Qed.

Lemma generations_spec p (w : grid) k :
  binary w → generations p w k = Nat.iter k (spec_step p) w.
Proof.
  intros Hb. induction k as [|k IH]; [done |]. simpl.
  rewrite <- IH. apply next_grid_spec.
  destruct k; [done | apply next_grid_binary].
Qed.

Lemma make_grid_shape p (w : grid) :
  has_dims p w →
  ∃ t, make_grid p = Some t ∧ length <$> t = length <$> w.
Proof.
  intros (Hh & Hw & _). unfold make_grid.
  rewrite decide_False by lia.
  assert (0 < ImageHeight p → 0 ≤ ImageWidth p) as Hpos.
  { intros Hpos. destruct w as [|row w]; [simpl in Hh; lia |].
    apply Forall_cons in Hw as [<- _]. lia. }
  rewrite decide_False by lia.
  eexists. split; [done |].
  rewrite fmap_replicate, length_replicate.
  apply list_eq_same_length with (length w).
  - by rewrite length_fmap.
  - rewrite length_replicate. lia.
  - intros i a b Hi Ha Hb.
    apply lookup_replicate in Ha as [-> _].
    rewrite list_lookup_fmap in Hb.
    destruct (w !! i) as [row|] eqn:Hr; [| done].
    simpl in Hb. injection Hb as <-.
    rewrite Forall_lookup in Hw. specialize (Hw _ _ Hr). lia.
Qed.

(** ** Waiters *)

Lemma served_replicate N : served (replicate N Continue_wait) = 0%nat.
Proof.
  unfold served. induction N as [|N IH]; [done |]. simpl.
  by rewrite filter_cons, decide_False by (intros Hne; by apply Hne).
Qed.

Lemma waiters_of_replicate final N :
  waiters_of final (replicate N Continue_wait).
Proof. apply Forall_replicate. by left. Qed.

Lemma served_le cs : (served cs ≤ length cs)%nat.
Proof. apply length_filter. Qed.

Lemma served_insert cs j t :
  cs !! j = Some Continue_wait → t ≠ Continue_wait →
  served (<[j := t]> cs) = Datatypes.S (served cs).
Proof.
  unfold served. revert j. induction cs as [|c cs IH]; intros j Hj Ht; [done |].
  destruct j as [|j]; simpl in *.
  - injection Hj as ->. rewrite !filter_cons.
    rewrite decide_True by done.
    by rewrite decide_False by (intros Hne; by apply Hne).
  - rewrite !filter_cons. case_decide; simpl; by rewrite IH.
Qed.

Lemma waiters_of_insert final cs j :
  waiters_of final cs → waiters_of final (<[j := Done (RWorld final)]> cs).
Proof. intros Hw. apply Forall_insert; [done | by right]. Qed.

Lemma waiters_all_served final cs :
  waiters_of final cs → served cs = length cs →
  cs = replicate (length cs) (Done (RWorld final)).
Proof.
  unfold served. induction 1 as [|c cs Hc Hcs IH]; intros Hall; [done |].
  rewrite filter_cons in Hall. simpl.
  pose proof (length_filter (λ t, t ≠ Continue_wait) cs).
  destruct Hc as [-> | ->].
  - rewrite decide_False in Hall by (intros Hne; by apply Hne).
    simpl in Hall. lia.
  - rewrite decide_True in Hall by done. simpl in Hall.
    f_equal. apply IH. lia.
Qed.

Lemma waiter_still_waiting final cs :
  waiters_of final cs → (served cs < length cs)%nat →
  ∃ j, cs !! j = Some Continue_wait.
Proof.
  unfold served. induction 1 as [|c cs Hc Hcs IH]; intros Hlt.
  - simpl in Hlt. lia.
  - destruct Hc as [-> | ->]; [by exists 0%nat |].
    rewrite filter_cons, decide_True in Hlt by done. simpl in Hlt.
    destruct IH as [j Hj]; [lia |]. by exists (Datatypes.S j).
Qed.

Lemma waiters_no_panic final cs : waiters_of final cs → Panicked ∉ cs.
Proof.
  intros Hw Hin. unfold waiters_of in Hw. rewrite Forall_forall in Hw.
  by destruct (Hw _ Hin).
Qed.

(** The only step a waiter takes: it receives from [FINISHEDCHANNEL]. *)
Lemma waiter_step final cs j t g g' t' :
  waiters_of final cs → cs !! j = Some t → (g', t') ∈ thread_step g t →
  t = Continue_wait ∧
  ∃ l, FINISHEDCHANNEL g = Some l ∧ g' = with_FINISHEDCHANNEL None g ∧
       t' = Done (RWorld (deref g (Some l))).
Proof.
  intros Hw Hj Hstep. unfold waiters_of in Hw. rewrite Forall_lookup in Hw.
  destruct (Hw _ _ Hj) as [-> | ->]; simpl in Hstep.
  - split; [done |]. destruct (FINISHEDCHANNEL g) as [l|]; [| by inversion Hstep].
    apply list_elem_of_singleton in Hstep. injection Hstep as -> ->. eauto.
  - by inversion Hstep.
Qed.

(** ** Steps of a pool *)

Lemma engine_step_cons_inv g d cs s' :
  engine_step (mkSystem g (d :: cs)) s' →
  (∃ g' d', (g', d') ∈ thread_step g d ∧ s' = mkSystem g' (d' :: cs)) ∨
  (∃ j t g' t', cs !! j = Some t ∧ (g', t') ∈ thread_step g t ∧
                s' = mkSystem g' (d :: <[j := t']> cs)).
Proof.
  inversion 1 as [g0 ts i t g' t' Hp Hi Hstep]; subst.
  destruct i as [|j]; simpl in *.
  - injection Hi as ->. left. eauto.
  - right. eauto 10.
Qed.

Lemma engine_step_head g d cs g' d' :
  Panicked ∉ d :: cs → (g', d') ∈ thread_step g d →
  engine_step (mkSystem g (d :: cs)) (mkSystem g' (d' :: cs)).
Proof.
  intros Hp Hstep.
  by apply (engine_step_thread g (d :: cs) 0 d g' d').
Qed.

Lemma engine_step_tail g d cs j t g' t' :
  Panicked ∉ d :: cs → cs !! j = Some t → (g', t') ∈ thread_step g t →
  engine_step (mkSystem g (d :: cs)) (mkSystem g' (d :: <[j := t']> cs)).
Proof.
  intros Hp Hj Hstep.
  by apply (engine_step_thread g (d :: cs) (Datatypes.S j) t g' t').
Qed.

(** ** A run without signals *)

Lemma run_inv_index p w0 N wl n m s :
  run_inv p w0 N wl n s → n = m → run_inv p w0 N wl m s.
Proof. by intros H <-. Qed.

Lemma in_flight_empty g : FINISHEDCHANNEL g = None → in_flight g = 0%nat.
Proof. unfold in_flight. by intros ->. Qed.

Lemma in_flight_full g l : FINISHEDCHANNEL g = Some l → in_flight g = 1%nat.
Proof. unfold in_flight. by intros ->. Qed.

(** A waiter that receives once the run is concluded returns [final]. *)
Lemma waiter_receives wl final cs j t g g' t' :
  concluded wl final g → waiters_of final cs →
  cs !! j = Some t → (g', t') ∈ thread_step g t →
  FINISHEDCHANNEL g = Some wl ∧ g' = with_FINISHEDCHANNEL None g ∧
  t' = Done (RWorld final) ∧
  waiters_of final (<[j := t']> cs) ∧
  served (<[j := t']> cs) = Datatypes.S (served cs) ∧
  concluded wl final g'.
Proof.
  intros (Ha & Hc & Hh & Hf) Hw Hj Hstep.
  destruct (waiter_step _ _ _ _ _ _ _ Hw Hj Hstep) as (-> & l & Hl & -> & ->).
  destruct Hf as [Hf | Hf]; [congruence |].
  assert (l = wl) as -> by congruence.
  unfold deref. rewrite Hh. simpl.
  split_and!; [done | done | done | | |].
  - by apply waiters_of_insert.
  - by apply served_insert.
  - split_and!; simpl; auto.
Qed.

Lemma run_inv_step p w0 N wl n s s' :
  has_dims p w0 →
  run_inv p w0 N wl n s → engine_step s s' →
  run_inv p w0 N wl (Datatypes.S n) s'.
Proof.
  intros Hd Hinv Hstep.
  destruct Hinv as
    [ g Hq Hf Hl
    | g k t Hq Hf Hw Ht Hs Hk
    | g k Hq Hf Hw Ht Hk
    | g i cs Hq Hc Hcs Hlen Hi HiN
    | g cs Hn Hc Hcs Hlen Hi
    | g cs Hn Hc Hcs Hlen Hi ];
    apply engine_step_cons_inv in Hstep
      as [(g' & d' & Hd' & ->) | (j & t' & g' & t'' & Hj & Ht' & ->)].
  - (* Start: [PARAMS = p], [tempWorld] allocated *)
    simpl in Hd'. destruct (make_grid_shape p w0 Hd) as (t & Hmk & Hs).
    rewrite Hmk in Hd'.
    apply list_elem_of_singleton in Hd'. injection Hd' as -> ->.
    rewrite Hl.
    eapply run_inv_index; [apply (run_inv_head _ _ _ _ _ 0%nat t) | lia].
    + done.
    + done.
    + simpl. rewrite lookup_app_r by lia.
      by replace (wl - length (heap g))%nat with 0%nat by lia.
    + simpl. rewrite lookup_app_r by lia.
      by replace (Datatypes.S wl - length (heap g))%nat with 1%nat by lia.
    + done.
    + lia.
  - destruct (waiter_step _ _ _ _ _ _ _
      (waiters_of_replicate w0 N) Hj Ht') as (_ & l & Hl' & _).
    congruence.
  - (* loop head *)
    destruct Hq as (Hp & Hcn & Hnum).
    simpl in Hd'. unfold select_cases in Hd'. rewrite Hp, Hcn in Hd'.
    simpl in Hd'. case_decide as Hlt.
    + rewrite (default_compute_next _ _ _ _ _ _ t Hw Ht) in Hd';
        [| by apply generations_dims | by rewrite generations_shape].
      apply list_elem_of_singleton in Hd'. injection Hd' as -> ->.
      eapply run_inv_index; [apply (run_inv_copy _ _ _ _ _ k) | lia].
      * done.
      * done.
      * simpl. rewrite list_lookup_insert_ne by lia. done.
      * simpl. apply list_lookup_insert_eq. by eapply lookup_lt_Some.
      * unfold turn_limit. lia.
    + apply list_elem_of_singleton in Hd'. injection Hd' as -> ->.
      assert (k = turn_limit p) as -> by (unfold turn_limit in *; lia).
      eapply run_inv_index;
        [apply (run_inv_drain _ _ _ _ _ 0%nat) | rewrite served_replicate; lia].
      * done.
      * split_and!; simpl; auto.
      * apply waiters_of_replicate.
      * apply length_replicate.
      * rewrite served_replicate. by apply in_flight_empty.
      * lia.
  - destruct (waiter_step _ _ _ _ _ _ _
      (waiters_of_replicate w0 N) Hj Ht') as (_ & l & Hl' & _).
    congruence.
  - (* copy back and publish *)
    simpl in Hd'.
    rewrite (default_publish_next _ _ _ _ _ _ _ Hw Ht) in Hd';
      [| by apply (generations_dims p w0 (Datatypes.S k))
       | by rewrite !generations_shape].
    apply list_elem_of_singleton in Hd'. injection Hd' as -> ->.
    replace (Z.of_nat k + 1) with (Z.of_nat (Datatypes.S k)) by lia.
    eapply run_inv_index;
      [apply (run_inv_head _ _ _ _ _ (Datatypes.S k)
                (generations p w0 (Datatypes.S k))) | lia].
    + done.
    + done.
    + simpl. apply list_lookup_insert_eq. by eapply lookup_lt_Some.
    + simpl. rewrite list_lookup_insert_ne by lia. done.
    + apply generations_shape.
    + lia.
  - destruct (waiter_step _ _ _ _ _ _ _
      (waiters_of_replicate w0 N) Hj Ht') as (_ & l & Hl' & _).
    congruence.
  - (* the drain after the loop *)
    destruct Hq as (Hp & Hcn & Hnum).
    simpl in Hd'. unfold drain in Hd'. rewrite Hnum in Hd'.
    case_decide as Hlt.
    + destruct (FINISHEDCHANNEL g) as [l|] eqn:Hf; [by inversion Hd' |].
      apply list_elem_of_singleton in Hd'. injection Hd' as -> ->.
      rewrite (in_flight_empty _ Hf) in Hi.
      replace (Z.of_nat i + 1) with (Z.of_nat (Datatypes.S i)) by lia.
      eapply run_inv_index;
        [apply (run_inv_drain _ _ _ _ _ (Datatypes.S i)) | lia].
      * done.
      * destruct Hc as (? & ? & ? & ?). split_and!; simpl; auto.
      * done.
      * done.
      * simpl. unfold in_flight. simpl. lia.
      * lia.
    + apply list_elem_of_singleton in Hd'. injection Hd' as -> ->.
      assert (i = N) as -> by lia.
      eapply run_inv_index; [apply run_inv_return | lia].
      * done.
      * destruct Hc as (? & ? & ? & ?). split_and!; simpl; auto.
      * done.
      * done.
      * done.
  - destruct (waiter_receives _ _ _ _ _ _ _ _ Hc Hcs Hj Ht')
      as (Hf & -> & -> & Hcs' & Hserved & Hc').
    rewrite (in_flight_full _ _ Hf) in Hi.
    eapply run_inv_index;
      [apply (run_inv_drain _ _ _ _ _ i) | rewrite Hserved; lia].
    + done.
    + done.
    + done.
    + by rewrite length_insert.
    + rewrite Hserved. unfold in_flight. simpl. lia.
    + done.
  - (* [WORLD = distributor(...)], [*reply = WORLD] *)
    simpl in Hd'.
    apply list_elem_of_singleton in Hd'. injection Hd' as -> ->.
    destruct Hc as (Ha & Hct & Hh & Hf). unfold deref. rewrite Hh. simpl.
    eapply run_inv_index; [apply run_inv_done | lia].
    + done.
    + split_and!; simpl; auto.
    + done.
    + done.
    + done.
  - destruct (waiter_receives _ _ _ _ _ _ _ _ Hc Hcs Hj Ht')
      as (Hf & -> & -> & Hcs' & Hserved & Hc').
    rewrite (in_flight_full _ _ Hf) in Hi.
    eapply run_inv_index; [apply run_inv_return | rewrite Hserved; lia].
    + done.
    + done.
    + done.
    + by rewrite length_insert.
    + rewrite Hserved. unfold in_flight. simpl. lia.
  - by inversion Hd'.
  - destruct (waiter_receives _ _ _ _ _ _ _ _ Hc Hcs Hj Ht')
      as (Hf & -> & -> & Hcs' & Hserved & Hc').
    rewrite (in_flight_full _ _ Hf) in Hi.
    eapply run_inv_index; [apply run_inv_done | rewrite Hserved; lia].
    + done.
    + done.
    + done.
    + by rewrite length_insert.
    + rewrite Hserved. unfold in_flight. simpl. lia.
Qed.

Lemma head_enabled g d cs :
  Panicked ∉ d :: cs → thread_step g d ≠ [] →
  ∃ s', engine_step (mkSystem g (d :: cs)) s'.
Proof.
  intros Hp Hne. destruct (thread_step g d) as [|[g' d'] l] eqn:Hs; [done |].
  eexists. apply (engine_step_head g d cs g' d'); [done |].
  rewrite Hs. by left.
Qed.

Lemma waiter_enabled final g d cs l :
  Panicked ∉ d :: cs → waiters_of final cs →
  FINISHEDCHANNEL g = Some l → (served cs < length cs)%nat →
  ∃ s', engine_step (mkSystem g (d :: cs)) s'.
Proof.
  intros Hp Hw Hf Hlt.
  destruct (waiter_still_waiting _ _ Hw Hlt) as [j Hj].
  eexists. eapply (engine_step_tail g d cs j); [done.. |].
  simpl. rewrite Hf. by left.
Qed.

Lemma pool_no_panic final d cs :
  d ≠ Panicked → waiters_of final cs → Panicked ∉ d :: cs.
Proof.
  intros Hd Hw [Heq | Hin]%elem_of_cons; [done |].
  by apply (waiters_no_panic final cs).
Qed.

Lemma run_inv_progress p w0 N wl n s :
  has_dims p w0 → run_inv p w0 N wl n s →
  (∃ s', engine_step s s') ∨
  run_completed N (generations p w0 (turn_limit p)) s.
Proof.
  intros Hd Hinv.
  destruct Hinv as
    [ g Hq Hf Hl
    | g k t Hq Hf Hw Ht Hs Hk
    | g k Hq Hf Hw Ht Hk
    | g i cs Hq Hc Hcs Hlen Hi HiN
    | g cs Hn Hc Hcs Hlen Hi
    | g cs Hn Hc Hcs Hlen Hi ].
  - left. apply head_enabled.
    + by apply (pool_no_panic w0), waiters_of_replicate.
    + simpl. by destruct (make_grid p).
  - left. apply head_enabled.
    + by apply (pool_no_panic w0), waiters_of_replicate.
    + destruct Hq as (Hp & Hcn & _). simpl. unfold select_cases.
      rewrite Hp, Hcn. simpl. by case_decide.
  - left. apply head_enabled.
    + by apply (pool_no_panic w0), waiters_of_replicate.
    + done.
  - left. destruct (FINISHEDCHANNEL g) as [l|] eqn:Hf.
    + rewrite (in_flight_full _ _ Hf) in Hi.
      eapply waiter_enabled; [by eapply pool_no_panic | done.. | lia].
    + apply head_enabled; [by eapply pool_no_panic |].
      simpl. unfold drain. rewrite Hf. by case_decide.
  - left. apply head_enabled; [by eapply pool_no_panic | done].
  - destruct (FINISHEDCHANNEL g) as [l|] eqn:Hf.
    + left. rewrite (in_flight_full _ _ Hf) in Hi.
      eapply waiter_enabled; [by eapply pool_no_panic | done.. | lia].
    + right. rewrite (in_flight_empty _ Hf) in Hi.
      destruct Hc as (Ha & Hct & _ & _).
      split_and!; simpl; [| done..].
      f_equal. rewrite <- Hlen at 1.
      apply waiters_all_served; [done | lia].
Qed.

Lemma run_inv_bound p w0 N wl n s :
  run_inv p w0 N wl n s → (n ≤ 4 + 2 * turn_limit p + 2 * N)%nat.
Proof.
  intros Hinv.
  destruct Hinv as
    [ g Hq Hf Hl
    | g k t Hq Hf Hw Ht Hs Hk
    | g k Hq Hf Hw Ht Hk
    | g i cs Hq Hc Hcs Hlen Hi HiN
    | g cs Hn Hc Hcs Hlen Hi
    | g cs Hn Hc Hcs Hlen Hi ];
    try pose proof (served_le cs); lia.
Qed.

(** Whatever has been returned so far is the final grid. *)
Lemma run_inv_replies p w0 N wl n s i r :
  run_inv p w0 N wl n s → pool s !! i = Some (Done r) →
  r = RWorld (generations p w0 (turn_limit p)).
Proof.
  intros Hinv Hi.
  assert (∀ cs, waiters_of (generations p w0 (turn_limit p)) cs →
                ∀ j, cs !! j = Some (Done r) →
                r = RWorld (generations p w0 (turn_limit p))) as Hcs.
  { intros cs Hw j Hj. unfold waiters_of in Hw. rewrite Forall_lookup in Hw.
    destruct (Hw _ _ Hj) as [? | ?]; congruence. }
  pose proof (Hcs _ (waiters_of_replicate _ N)) as Hrep.
  destruct Hinv; destruct i as [|j]; simpl in Hi; try done; eauto.
  congruence.
Qed.

Lemma run_inv_nsteps p w0 N wl n s0 s :
  has_dims p w0 → run_inv p w0 N wl 0 s0 →
  nsteps engine_step n s0 s → run_inv p w0 N wl n s.
Proof.
  intros Hd H0. revert s. induction n as [|n IH]; intros s Hn.
  - by inversion Hn; subst.
  - apply nsteps_inv_r in Hn as (s1 & Hn & Hstep).
    eapply run_inv_step; eauto.
Qed.

(** Running a schedule takes one step of the engine per entry. *)
Lemma run_one_step s c s' : run_one s c = Some s' → engine_step s s'.
Proof.
  unfold run_one. destruct s as [g ts]. simpl.
  case_decide as Hp; [done |].
  destruct (ts !! c.1) as [t|] eqn:Ht; [| done]. simpl.
  destruct (thread_step g t !! c.2) as [[g' t']|] eqn:Hs; [| done]. simpl.
  intros [= <-]. apply (engine_step_thread g ts c.1 t g' t'); [done.. |].
  by eapply list_elem_of_lookup_2.
Qed.

Lemma run_nsteps sched s s' :
  run sched s = Some s' → nsteps engine_step (length sched) s s'.
Proof.
  revert s. induction sched as [|c sched IH]; intros s; simpl.
  - intros [= <-]. constructor.
  - destruct (run_one s c) as [s1|] eqn:H1; [| done]. simpl. intros Hrun.
    eapply nsteps_l; [by eapply run_one_step | by apply IH].
Qed.

Lemma run_inv_start p w0 N g0 :
  PAUSECHANNEL g0 = None → CANCELCHANNEL g0 = None →
  FINISHEDCHANNEL g0 = None → NUMBEROFCONTINUES g0 = Z.of_nat N →
  run_inv p w0 N (length (heap g0)) 0
    (mkSystem g0 (Start_entry p w0 :: replicate N Continue_wait)).
Proof. intros. by apply run_inv_entry. Qed.

(** C2. [Start(p, grid)] on a well-formed grid, in an engine where no pause
    or cancel signal is pending or ever sent (the only other calls are [N]
    registered waiters): whatever the interleaving, the execution takes at
    most 4 + 2 * Turns + 2 * N steps, it can go on until [Start] has
    returned, and what [Start] returns is the grid obtained from the initial
    one by applying the one-generation step [p.Turns] times. *)
Theorem start_returns_final_grid p (w0 : grid) N g0 n s :
  well_formed p w0 →
  PAUSECHANNEL g0 = None → CANCELCHANNEL g0 = None →
  FINISHEDCHANNEL g0 = None → NUMBEROFCONTINUES g0 = Z.of_nat N →
  nsteps engine_step n
    (mkSystem g0 (Start_entry p w0 :: replicate N Continue_wait)) s →
  (n ≤ 4 + 2 * turn_limit p + 2 * N)%nat ∧
  ((∃ s', engine_step s s') ∨
   pool s !! 0%nat
   = Some (Done (RWorld (Nat.iter (turn_limit p) (spec_step p) w0)))) ∧
  (∀ r, pool s !! 0%nat = Some (Done r) →
        r = RWorld (Nat.iter (turn_limit p) (spec_step p) w0)).
Proof.
  intros [Hd Hb] Hp Hc Hf Hn Hsteps.
  rewrite <- (generations_spec p w0 _ Hb).
  pose proof (run_inv_nsteps p w0 N _ n _ s Hd
                (run_inv_start p w0 N g0 Hp Hc Hf Hn) Hsteps) as Hinv.
  split_and!.
  - by eapply run_inv_bound.
  - destruct (run_inv_progress _ _ _ _ _ _ Hd Hinv) as [? | (Hpool & _)];
      [by left | right].
    by rewrite Hpool.
  - intros r Hr. by eapply run_inv_replies.
Qed.

Lemma start_returns_final_grid_witness :
  ∃ s,
    nsteps engine_step 10 sample_start s ∧
    (10 ≤ 4 + 2 * turn_limit sample_params + 2 * 1)%nat ∧
    ((∃ s', engine_step s s') ∨
     pool s !! 0%nat
     = Some (Done (RWorld (Nat.iter (turn_limit sample_params)
                             (spec_step sample_params) sample_world)))) ∧
    (∀ r, pool s !! 0%nat = Some (Done r) →
          r = RWorld (Nat.iter (turn_limit sample_params)
                        (spec_step sample_params) sample_world)).
Proof.
  eexists. split.
  - apply (run_nsteps sample_schedule). vm_compute. reflexivity.
  - apply (start_returns_final_grid sample_params sample_world 1
             (with_NUMBEROFCONTINUES 1 init_globals) 10).
    + apply sample_world_well_formed.
    + reflexivity.
    + reflexivity.
    + reflexivity.
    + reflexivity.
    + apply (run_nsteps sample_schedule). vm_compute. reflexivity.
Defined.

(** C4. A run of [Start] beside [N] waiters registered through [Continue],
    with no signal sent: whatever the interleaving, the execution is
    bounded and can go on until the run is completed, that is, until
    [Start] and each of the [N] waiters have returned the same final grid,
    Progress ([ALIVECELLS], [COMPLETEDTURNS]) is reset to zero,
    [NUMBEROFCONTINUES] is zero and nothing is left in
    [FINISHEDCHANNEL]; and no waiter ever returns anything but the final
    grid. *)
Theorem waiters_receive_final_grid p (w0 : grid) N g0 n s :
  has_dims p w0 →
  PAUSECHANNEL g0 = None → CANCELCHANNEL g0 = None →
  FINISHEDCHANNEL g0 = None → NUMBEROFCONTINUES g0 = Z.of_nat N →
  nsteps engine_step n
    (mkSystem g0 (Start_entry p w0 :: replicate N Continue_wait)) s →
  (n ≤ 4 + 2 * turn_limit p + 2 * N)%nat ∧
  ((∃ s', engine_step s s') ∨
   run_completed N (generations p w0 (turn_limit p)) s) ∧
  (∀ j r, pool s !! Datatypes.S j = Some (Done r) →
          r = RWorld (generations p w0 (turn_limit p))).
Proof.
  intros Hd Hp Hc Hf Hn Hsteps.
  pose proof (run_inv_nsteps p w0 N _ n _ s Hd
                (run_inv_start p w0 N g0 Hp Hc Hf Hn) Hsteps) as Hinv.
  split_and!.
  - by eapply run_inv_bound.
  - by eapply run_inv_progress.
  - intros j r Hr. by eapply run_inv_replies.
Qed.

Lemma waiters_receive_final_grid_witness :
  ∃ s,
    nsteps engine_step 10 sample_start s ∧
    (10 ≤ 4 + 2 * turn_limit sample_params + 2 * 1)%nat ∧
    ((∃ s', engine_step s s') ∨
     run_completed 1
       (generations sample_params sample_world (turn_limit sample_params)) s) ∧
    (∀ j r, pool s !! Datatypes.S j = Some (Done r) →
            r = RWorld (generations sample_params sample_world
                          (turn_limit sample_params))).
Proof.
  eexists. split.
  - apply (run_nsteps sample_schedule). vm_compute. reflexivity.
  - apply (waiters_receive_final_grid sample_params sample_world 1
             (with_NUMBEROFCONTINUES 1 init_globals) 10).
    + apply sample_world_well_formed.
    + reflexivity.
    + reflexivity.
    + reflexivity.
    + reflexivity.
    + apply (run_nsteps sample_schedule). vm_compute. reflexivity.
Defined.

(** ** Cancellation *)

Lemma engine_step_cons2_inv g d a cs s' :
  engine_step (mkSystem g (d :: a :: cs)) s' →
  (∃ g' d', (g', d') ∈ thread_step g d ∧ s' = mkSystem g' (d' :: a :: cs)) ∨
  (∃ g' a', (g', a') ∈ thread_step g a ∧ s' = mkSystem g' (d :: a' :: cs)) ∨
  (∃ j t g' t', cs !! j = Some t ∧ (g', t') ∈ thread_step g t ∧
                s' = mkSystem g' (d :: a :: <[j := t']> cs)).
Proof.
  intros [? | (j & t & g' & t' & Hj & Hstep & ->)]%engine_step_cons_inv;
    [by left |].
  right. destruct j as [|j]; simpl in *.
  - injection Hj as ->. left. eauto.
  - right. eauto 10.
Qed.




Lemma pool2_no_panic final d a cs :
  d ≠ Panicked → a ≠ Panicked → waiters_of final cs →
  Panicked ∉ d :: a :: cs.
Proof.
  intros Hd Ha Hw [Heq | Hin]%elem_of_cons; [done |].
  by apply (pool_no_panic final a cs).
Qed.










(** ** Calls other than [Start] *)

(** No call but [Start] writes Progress, [WORLD] or a grid. *)
Lemma other_call_step g t g' t' :
  is_start_thread t = false → (g', t') ∈ thread_step g t →
  heap g' = heap g ∧ ALIVECELLS g' = ALIVECELLS g ∧
  COMPLETEDTURNS g' = COMPLETEDTURNS g ∧ WORLD g' = WORLD g ∧
  is_start_thread t' = false ∧ t' ≠ Panicked.
Proof.
  intros Ht Hstep.
  destruct t; try discriminate Ht; simpl in Hstep;
    repeat case_decide;
    repeat match type of Hstep with
           | context [match ?c with _ => _ end] => destruct c
           end;
    try (by inversion Hstep);
    apply list_elem_of_singleton in Hstep; injection Hstep as -> ->; done.
Qed.

Lemma other_call_snapshot g t g' t' :
  is_start_thread t = false → (g', t') ∈ thread_step g t →
  snapshot g' = snapshot g.
Proof.
  intros Ht Hstep.
  destruct (other_call_step _ _ _ _ Ht Hstep) as (Hh & Ha & Hc & Hw & _).
  unfold snapshot, deref. by rewrite Hh, Ha, Hc, Hw.
Qed.

(** Before any [Start]: Progress is {0, 0} and [WORLD] is nil. *)
Lemma never_started_step s s' :
  Forall (λ t, is_start_thread t = false) (pool s) →
  engine_step s s' →
  Forall (λ t, is_start_thread t = false) (pool s') ∧
  snapshot (globals s') = snapshot (globals s).
Proof.
  intros Hts Hstep. destruct Hstep as [g ts i t g' t' Hp Hi Hstep]. simpl in *.
  assert (is_start_thread t = false) as Ht.
  { rewrite Forall_lookup in Hts. eauto. }
  split; [| by eapply other_call_snapshot].
  apply Forall_insert; [done |].
  by destruct (other_call_step _ _ _ _ Ht Hstep) as (_ & _ & _ & _ & ? & _).
Qed.

Lemma never_started_rtc s s' :
  Forall (λ t, is_start_thread t = false) (pool s) →
  rtc engine_step s s' →
  Forall (λ t, is_start_thread t = false) (pool s') ∧
  snapshot (globals s') = snapshot (globals s).
Proof.
  intros Hts Hsteps. induction Hsteps as [s | s s1 s' Hstep Hsteps IH].
  - done.
  - destruct (never_started_step _ _ Hts Hstep) as [Hts1 Hsn1].
    destruct (IH Hts1) as [Hts' Hsn']. split; [done | congruence].
Qed.

(** C8. In an engine started from its initial globals in which no call of
    [Start] was ever issued (whatever the other calls, and however far
    they have run), [GetAliveCells] replies {completedTurns 0,
    aliveCells 0} and [Save] replies completedTurns 0 with the nil (empty)
    grid; and in every state whatsoever [Save] has exactly one step, which
    replies the published [COMPLETEDTURNS] and the grid [WORLD] refers to
    and leaves the globals as they are. *)
Theorem snapshot_before_any_start ts s :
  Forall (λ t, is_start_thread t = false) ts →
  rtc engine_step (mkSystem init_globals ts) s →
  thread_step (globals s) GetAliveCells_entry
    = [(globals s, Done (RAlive 0 0))] ∧
  thread_step (globals s) Save_entry
    = [(globals s, Done (RSnapshot 0 []))] ∧
  ∀ g, thread_step g Save_entry
       = [(g, Done (RSnapshot (COMPLETEDTURNS g) (deref g (WORLD g))))].
Proof.
  intros Hts Hsteps.
  destruct (never_started_rtc (mkSystem init_globals ts) s Hts Hsteps)
    as [_ Hsn].
  unfold snapshot in Hsn. simpl in Hsn. injection Hsn as Ha Hc Hw.
  simpl. rewrite Ha, Hc, Hw. done.
Qed.

Lemma snapshot_before_any_start_witness :
  ∃ s,
    rtc engine_step
      (mkSystem init_globals [Pause_entry; Continue_entry; Save_entry]) s ∧
    pool s = [Pause_reply; Continue_wait; Save_entry] ∧
    thread_step (globals s) GetAliveCells_entry
      = [(globals s, Done (RAlive 0 0))] ∧
    thread_step (globals s) Save_entry
      = [(globals s, Done (RSnapshot 0 []))] ∧
    ∀ g, thread_step g Save_entry
         = [(g, Done (RSnapshot (COMPLETEDTURNS g) (deref g (WORLD g))))].
Proof.
  eexists. split; [| split].
  - eapply rtc_nsteps_2.
    apply (run_nsteps [(0, 0); (1, 0)]%nat). vm_compute. reflexivity.
  - reflexivity.
  - apply (snapshot_before_any_start [Pause_entry; Continue_entry; Save_entry]).
    + repeat first [apply Forall_nil_2 | apply Forall_cons_2]; reflexivity.
    + eapply rtc_nsteps_2.
      apply (run_nsteps [(0, 0); (1, 0)]%nat). vm_compute. reflexivity.
Defined.

(** ** [IsAlreadyRunning] *)

(** The steps of the loop head. *)
Lemma loop_head_step g p world tempWorld turns g' t' :
  (g', t') ∈ thread_step g (Dist_head p world tempWorld turns) →
  (turns < Turns p ∧ is_Some (CANCELCHANNEL g) ∧
   g' = with_progress 0 0 (with_CANCELCHANNEL None g) ∧
   t' = Dist_cancel_send world 0) ∨
  (turns < Turns p ∧ PAUSECHANNEL g = Some true ∧
   g' = with_PAUSECHANNEL None g ∧ t' = Dist_paused p world tempWorld turns) ∨
  (turns < Turns p ∧ PAUSECHANNEL g = Some false ∧
   g' = with_PAUSECHANNEL None g ∧
   t' = Dist_head p world tempWorld (turns + 1)) ∨
  (turns < Turns p ∧ CANCELCHANNEL g = None ∧ PAUSECHANNEL g = None ∧
   (g', t') = default_compute g p world tempWorld turns) ∨
  (¬ turns < Turns p ∧ g' = with_progress 0 0 g ∧
   t' = Dist_final_send world 0).
Proof.
  simpl. unfold select_cases. intros Hstep. case_decide as Hlt.
  - destruct (CANCELCHANNEL g) as [b|] eqn:Hc,
             (PAUSECHANNEL g) as [[|]|] eqn:Hp; simpl in Hstep;
      repeat match type of Hstep with
             | _ ∈ _ :: _ => apply elem_of_cons in Hstep as [Hstep | Hstep]
             | _ ∈ [] => by inversion Hstep
             end;
      try (injection Hstep as -> ->); eauto 10.
  - apply list_elem_of_singleton in Hstep. injection Hstep as -> ->.
    eauto 10.
Qed.

Lemma thread_step_turns g t g' t' :
  (g', t') ∈ thread_step g t →
  t' = Panicked ∨ run_active t' = true ∨ COMPLETEDTURNS g' = 0 ∨
  (run_active t = false ∧ COMPLETEDTURNS g' = COMPLETEDTURNS g).
Proof.
  intros Hstep.
  destruct t;
    [ | | | |
      apply loop_head_step in Hstep
        as [(_ & _ & -> & ->) | [(_ & _ & -> & ->) | [(_ & _ & -> & ->)
           | [(_ & _ & _ & Hstep) | (_ & -> & ->)]]]]; simpl; auto;
      unfold default_compute in Hstep
    | .. ];
    simpl in Hstep;
    unfold default_publish, drain in Hstep;
    repeat case_decide;
    repeat match type of Hstep with
           | context [match ?c with _ => _ end] => destruct c eqn:?
           end;
    simpl in Hstep;
    repeat match type of Hstep with
           | _ ∈ _ :: _ => apply elem_of_cons in Hstep as [Hstep | Hstep]
           | _ ∈ [] => by inversion Hstep
           | _ = _ => injection Hstep as -> ->
           end;
    simpl; auto.
Qed.

Lemma idle_or_counting_step s s' :
  idle_or_counting s → engine_step s s' → idle_or_counting s'.
Proof.
  intros Hinv Hstep. destruct Hstep as [g ts i t g' t' Hp Hi Hstep].
  unfold idle_or_counting in *. simpl in *.
  pose proof (lookup_lt_Some _ _ _ Hi) as Hlt.
  destruct (thread_step_turns _ _ _ _ Hstep)
    as [-> | [Hact | [Hz | [Hin Hsame]]]].
  - left. apply list_elem_of_lookup. exists i.
    by apply list_lookup_insert_eq.
  - right. left. apply Exists_exists. exists t'. split; [| done].
    apply list_elem_of_lookup. exists i. by apply list_lookup_insert_eq.
  - by right; right.
  - destruct Hinv as [? | [Hex | Hz]]; [done | | right; right; congruence].
    right. left. apply Exists_exists in Hex as (x & Hx & Hact).
    apply list_elem_of_lookup in Hx as [j Hj].
    apply Exists_exists. exists x. split; [| done].
    apply list_elem_of_lookup. exists j.
    rewrite list_lookup_insert_ne; [done |]. intros ->. congruence.
Qed.

Lemma idle_or_counting_rtc s s' :
  idle_or_counting s → rtc engine_step s s' → idle_or_counting s'.
Proof.
  intros Hinv Hsteps. induction Hsteps as [s | s s1 s' Hstep Hsteps IH].
  - done.
  - apply IH. by eapply idle_or_counting_step.
Qed.

(** C3, as the code has it. [IsAlreadyRunning(p)] takes "a run is active"
    to mean [COMPLETEDTURNS - 1 > 0]. In every state the engine reaches from
    its initial globals, with [COMPLETEDTURNS] a non-negative [int]: the
    call replies false when no run is active (the counter is then zero),
    and more generally whenever [COMPLETEDTURNS] is at most 1; with
    [COMPLETEDTURNS] at least 2 it replies true when the stored parameters
    equal [p], and otherwise goes on to send the cancel signal. Having sent
    it, the call is blocked as long as [DONECANCELINGCHANNEL] is empty, and
    replies false once it has received from it. *)
Theorem is_already_running_by_turns ts s p :
  rtc engine_step (mkSystem init_globals ts) s →
  0 ≤ COMPLETEDTURNS (globals s) < 2 ^ 63 →
  (Panicked ∉ pool s → Forall (λ t, run_active t = false) (pool s) →
   thread_step (globals s) (IsAlreadyRunning_entry p)
   = [(globals s, Done (RBool false))]) ∧
  (COMPLETEDTURNS (globals s) ≤ 1 →
   thread_step (globals s) (IsAlreadyRunning_entry p)
   = [(globals s, Done (RBool false))]) ∧
  (2 ≤ COMPLETEDTURNS (globals s) → PARAMS (globals s) = p →
   thread_step (globals s) (IsAlreadyRunning_entry p)
   = [(globals s, Done (RBool true))]) ∧
  (2 ≤ COMPLETEDTURNS (globals s) → PARAMS (globals s) ≠ p →
   thread_step (globals s) (IsAlreadyRunning_entry p)
   = [(globals s, IsAlreadyRunning_cancel)]) ∧
  (∀ g, CANCELCHANNEL g = None →
        thread_step g IsAlreadyRunning_cancel
        = [(with_CANCELCHANNEL (Some true) g, IsAlreadyRunning_wait)]) ∧
  (∀ g, DONECANCELINGCHANNEL g = None →
        thread_step g IsAlreadyRunning_wait = []) ∧
  (∀ g b, DONECANCELINGCHANNEL g = Some b →
          thread_step g IsAlreadyRunning_wait
          = [(with_DONECANCELINGCHANNEL None g, Done (RBool false))]).
Proof.
  intros Hsteps Hct.
  assert (int_sub (COMPLETEDTURNS (globals s)) 1
          = COMPLETEDTURNS (globals s) - 1) as Hsub.
  { apply wrap_small. lia. }
  assert (COMPLETEDTURNS (globals s) ≤ 1 →
          thread_step (globals s) (IsAlreadyRunning_entry p)
          = [(globals s, Done (RBool false))]) as Hlow.
  { intros Hle. simpl. rewrite Hsub. by rewrite decide_False by lia. }
  split_and!.
  - intros Hp Hidle. apply Hlow.
    assert (idle_or_counting (mkSystem init_globals ts)) as H0.
    { by right; right. }
    destruct (idle_or_counting_rtc _ _ H0 Hsteps) as [? | [Hex | Hz]];
      [done | | lia].
    apply Exists_exists in Hex as (t & Hin & Hact).
    rewrite Forall_forall in Hidle. specialize (Hidle _ Hin). congruence.
  - done.
  - intros Hge Heq. simpl. rewrite Hsub.
    rewrite decide_True by lia. by rewrite decide_True.
  - intros Hge Hne. simpl. rewrite Hsub.
    rewrite decide_True by lia. by rewrite decide_False.
  - intros g Hc. simpl. by rewrite Hc.
  - intros g Hd. simpl. by rewrite Hd.
  - intros g b Hd. simpl. by rewrite Hd.
Qed.

Lemma is_already_running_by_turns_witness :
  ∃ s,
    rtc engine_step sample_query s ∧
    COMPLETEDTURNS (globals s) = 2 ∧
    ((Panicked ∉ pool s → Forall (λ t, run_active t = false) (pool s) →
      thread_step (globals s) (IsAlreadyRunning_entry sample_params)
      = [(globals s, Done (RBool false))]) ∧
     (COMPLETEDTURNS (globals s) ≤ 1 →
      thread_step (globals s) (IsAlreadyRunning_entry sample_params)
      = [(globals s, Done (RBool false))]) ∧
     (2 ≤ COMPLETEDTURNS (globals s) → PARAMS (globals s) = sample_params →
      thread_step (globals s) (IsAlreadyRunning_entry sample_params)
      = [(globals s, Done (RBool true))]) ∧
     (2 ≤ COMPLETEDTURNS (globals s) → PARAMS (globals s) ≠ sample_params →
      thread_step (globals s) (IsAlreadyRunning_entry sample_params)
      = [(globals s, IsAlreadyRunning_cancel)]) ∧
     (∀ g, CANCELCHANNEL g = None →
           thread_step g IsAlreadyRunning_cancel
           = [(with_CANCELCHANNEL (Some true) g, IsAlreadyRunning_wait)]) ∧
     (∀ g, DONECANCELINGCHANNEL g = None →
           thread_step g IsAlreadyRunning_wait = []) ∧
     (∀ g b, DONECANCELINGCHANNEL g = Some b →
             thread_step g IsAlreadyRunning_wait
             = [(with_DONECANCELINGCHANNEL None g, Done (RBool false))])).
Proof.
  eexists. split; [| split].
  - eapply rtc_nsteps_2.
    apply (run_nsteps [(0, 0); (0, 0); (0, 0); (0, 0); (0, 0)]%nat).
    vm_compute. reflexivity.
  - reflexivity.
  - apply (is_already_running_by_turns (pool sample_query)).
    + eapply rtc_nsteps_2.
      apply (run_nsteps [(0, 0); (0, 0); (0, 0); (0, 0); (0, 0)]%nat).
      vm_compute. reflexivity.
    + simpl. split; [lia | by vm_compute].
Defined.

(** C3 fails as stated: after the first generation of a run of two the
    run is active and the stored parameters are the caller's, yet
    [IsAlreadyRunning] replies false. *)
Lemma is_already_running_misses_first_turn :
  ∃ s,
    run [(0, 0); (0, 0); (0, 0); (1, 0)]%nat sample_query = Some s ∧
    pool s !! 0%nat = Some (Dist_head sample_params 0 1 1) ∧
    1 < Turns sample_params ∧
    PARAMS (globals s) = sample_params ∧
    COMPLETEDTURNS (globals s) = 1 ∧
    pool s !! 1%nat = Some (Done (RBool false)).
Proof.
  eexists. split; [vm_compute; reflexivity |].
  split_and!; try reflexivity.
Qed.

(** ** Pausing *)

Lemma paused_engine_step i s s' :
  paused_at i s → sole_loop i (pool s) → engine_step s s' →
  heap (globals s') = heap (globals s) ∧
  snapshot (globals s') = snapshot (globals s) ∧
  sole_loop i (pool s') ∧
  (paused_at i s' ∨
   PAUSECHANNEL (globals s) = Some false ∧
   ∃ p wl tl k, pool s !! i = Some (Dist_paused p wl tl k) ∧
                pool s' !! i = Some (Dist_head p wl tl (k + 1))).
Proof.
  intros (p & wl & tl & k & Hpi) Hsole Hstep.
  destruct Hstep as [g ts j t g' t' Hp Hj Hstep]. simpl in *.
  pose proof (lookup_lt_Some _ _ _ Hj) as Hlt.
  destruct (decide (j = i)) as [-> | Hne].
  - assert (t = Dist_paused p wl tl k) as -> by congruence.
    simpl in Hstep.
    destruct (PAUSECHANNEL g) as [tempKey|] eqn:Hpc; [| by inversion Hstep].
    apply list_elem_of_singleton in Hstep. injection Hstep as -> ->.
    split_and!; [done | done | |].
    + intros j t Hji Ht. rewrite list_lookup_insert_ne in Ht by done. eauto.
    + destruct tempKey.
      * left. exists p, wl, tl, k. by apply list_lookup_insert_eq.
      * right. split; [done |]. exists p, wl, tl, k.
        split; [done |]. by apply list_lookup_insert_eq.
  - pose proof (Hsole _ _ Hne Hj) as Ht.
    destruct (other_call_step _ _ _ _ Ht Hstep) as (Hh & _ & _ & _ & Ht' & _).
    split_and!; [done | by apply (other_call_snapshot g t g' t') | |].
    + intros j' x Hji Hx.
      destruct (decide (j' = j)) as [-> | Hjj].
      * rewrite list_lookup_insert_eq in Hx by done. congruence.
      * rewrite list_lookup_insert_ne in Hx by done. eauto.
    + left. exists p, wl, tl, k. simpl. by rewrite list_lookup_insert_ne.
Qed.

Lemma paused_steps_frozen i s s' :
  paused_at i s → sole_loop i (pool s) → rtc (paused_step i) s s' →
  paused_at i s' ∧ sole_loop i (pool s') ∧
  heap (globals s') = heap (globals s) ∧
  snapshot (globals s') = snapshot (globals s).
Proof.
  intros Hp Hsole Hsteps.
  induction Hsteps as [s | s s1 s' [Hstep Hp1] Hsteps IH]; [done |].
  destruct (paused_engine_step _ _ _ Hp Hsole Hstep) as (Hh & Hsn & Hsole1 & _).
  destruct (IH Hp1 Hsole1) as (? & ? & Hh' & Hsn').
  split_and!; [done | done | congruence | congruence].
Qed.

(** C6, as the code has it. From the moment the loop has consumed a pause
    signal and for as long as it stays in the pause case (no other call of
    [Start] being in progress), whatever the other calls do: no grid is
    written, so no generation is computed, and Progress and the published
    grid stay what they were when the signal was consumed; a [Save] issued
    then replies exactly that snapshot; and the only step that takes the
    loop out of the pause case is its receiving [false], the resume signal,
    which leaves Progress unchanged too and moves the loop to the head of
    the next turn. *)
Theorem paused_progress_frozen i s s' :
  paused_at i s → sole_loop i (pool s) → rtc (paused_step i) s s' →
  heap (globals s') = heap (globals s) ∧
  snapshot (globals s') = snapshot (globals s) ∧
  thread_step (globals s') Save_entry
  = [(globals s',
      Done (RSnapshot (COMPLETEDTURNS (globals s))
              (deref (globals s) (WORLD (globals s)))))] ∧
  ∀ s'', engine_step s' s'' →
    heap (globals s'') = heap (globals s) ∧
    snapshot (globals s'') = snapshot (globals s) ∧
    (paused_at i s'' ∨
     PAUSECHANNEL (globals s') = Some false ∧
     ∃ p wl tl k, pool s' !! i = Some (Dist_paused p wl tl k) ∧
                  pool s'' !! i = Some (Dist_head p wl tl (k + 1))).
Proof.
  intros Hp Hsole Hsteps.
  destruct (paused_steps_frozen _ _ _ Hp Hsole Hsteps)
    as (Hp' & Hsole' & Hh & Hsn).
  split; [done |]. split; [done |]. split.
  - unfold snapshot in Hsn. injection Hsn as _ Hc Hw.
    simpl. by rewrite Hc, Hw.
  - intros s'' Hstep.
    destruct (paused_engine_step _ _ _ Hp' Hsole' Hstep)
      as (Hh'' & Hsn'' & _ & Hout).
    split_and!; [congruence | congruence | done].
Qed.

Lemma sample_paused_sole_loop : sole_loop 0 (pool sample_paused).
Proof.
  intros j t Hne Hj.
  destruct j as [|[|[|[|j]]]]; simpl in Hj; try done;
    by injection Hj as <-.
Qed.

Lemma paused_progress_frozen_witness :
  ∃ s',
    rtc (paused_step 0) sample_paused s' ∧
    pool s' !! 3%nat = Some (Done (RSnapshot 2 sample_temp)) ∧
    heap (globals s') = heap (globals sample_paused) ∧
    snapshot (globals s') = snapshot (globals sample_paused) ∧
    thread_step (globals s') Save_entry
    = [(globals s',
        Done (RSnapshot (COMPLETEDTURNS (globals sample_paused))
                (deref (globals sample_paused)
                   (WORLD (globals sample_paused)))))] ∧
    ∀ s'', engine_step s' s'' →
      heap (globals s'') = heap (globals sample_paused) ∧
      snapshot (globals s'') = snapshot (globals sample_paused) ∧
      (paused_at 0 s'' ∨
       PAUSECHANNEL (globals s') = Some false ∧
       ∃ p wl tl k, pool s' !! 0%nat = Some (Dist_paused p wl tl k) ∧
                    pool s'' !! 0%nat = Some (Dist_head p wl tl (k + 1))).
Proof.
  assert (∃ s', run_one sample_paused (3, 0)%nat = Some s' ∧
                pool s' !! 3%nat = Some (Done (RSnapshot 2 sample_temp)) ∧
                paused_at 0 s') as (s' & Hrun & Hsave & Hp).
  { eexists. split; [vm_compute; reflexivity |].
    split; [reflexivity |]. by eexists _, _, _, _. }
  exists s'.
  assert (rtc (paused_step 0) sample_paused s') as Hsteps.
  { apply rtc_once. split; [by apply (run_one_step _ (3, 0)%nat) | done]. }
  split; [done |]. split; [done |].
  apply (paused_progress_frozen 0 sample_paused s').
  - by eexists _, _, _, _.
  - apply sample_paused_sole_loop.
  - done.
Defined.

(** C6 fails as stated: the status is queried (completed turns 1, alive
    cells 9) and [Pause] is called (it replies turn 1 too) while the second
    generation is being computed; the loop finishes that generation before
    it takes the pause case, and a [Save] issued while it is paused replies
    turn 2 and the grid of the second generation. *)
Lemma pause_lets_generation_in_flight_finish :
  ∃ s,
    run (sample_pause_schedule ++ [(3, 0)]%nat) sample_pause = Some s ∧
    pool s !! 0%nat = Some (Dist_paused (mkParams 5 1 3 3) 0 1 2) ∧
    pool s !! 1%nat = Some (Done (RAlive 9 1)) ∧
    pool s !! 2%nat = Some (Done (RSnapshot 1 sample_alive)) ∧
    pool s !! 3%nat = Some (Done (RSnapshot 2 sample_temp)) ∧
    COMPLETEDTURNS (globals s) = 2 ∧ ALIVECELLS (globals s) = 0.
Proof.
  eexists. split; [vm_compute; reflexivity |].
  split_and!; reflexivity.
Qed.

(** ** The stepper and its input *)

(** C7, as the code has it. One generation on a grid of the right
    dimensions, with no signal pending, is two steps of the loop, each
    with exactly one outcome and without a panic. The first computes the
    next grid from [world] into [tempWorld] and changes nothing else: the
    input grid still holds its original cells. The second copies
    [tempWorld] back into [world] in place, so that the slice the loop was
    given holds the next generation from then on, and publishes
    Progress. *)
Theorem generation_reads_then_overwrites g p wl tl turns (w t : grid) :
  heap g !! wl = Some w → heap g !! tl = Some t → wl ≠ tl →
  has_dims p w → length <$> t = length <$> w →
  CANCELCHANNEL g = None → PAUSECHANNEL g = None → turns < Turns p →
  ∃ g1 g2,
    thread_step g (Dist_head p wl tl turns)
    = [(g1, Dist_copy p wl tl turns)] ∧
    g1 = with_heap (<[tl := next_grid p w]> (heap g)) g ∧
    heap g1 !! wl = Some w ∧
    heap g1 !! tl = Some (next_grid p w) ∧
    thread_step g1 (Dist_copy p wl tl turns)
    = [(g2, Dist_head p wl tl (turns + 1))] ∧
    heap g2 !! wl = Some (next_grid p w) ∧
    WORLD g2 = Some wl ∧
    ALIVECELLS g2 = count_alive (next_grid p w) ∧
    COMPLETEDTURNS g2 = int_add turns 1.
Proof.
  intros Hw Ht Hne Hd Hs Hc Hp Hlt.
  pose proof (lookup_lt_Some _ _ _ Hw) as Hlw.
  pose proof (lookup_lt_Some _ _ _ Ht) as Hlt'.
  eexists _, _. split_and!.
  - simpl. unfold select_cases. rewrite Hc, Hp. simpl.
    rewrite decide_True by done.
    by rewrite (default_compute_next _ _ _ _ _ w t).
  - done.
  - simpl. by rewrite list_lookup_insert_ne.
  - simpl. by apply list_lookup_insert_eq.
  - simpl.
    rewrite (default_publish_next _ _ _ _ _ w (next_grid p w)); [done | ..].
    + simpl. by rewrite list_lookup_insert_ne.
    + simpl. by apply list_lookup_insert_eq.
    + by apply next_grid_dims.
    + by rewrite next_grid_shape.
  - simpl. apply list_lookup_insert_eq. by rewrite length_insert.
  - done.
  - done.
  - done.
Qed.

Lemma generation_reads_then_overwrites_witness :
  ∃ g1 g2,
    thread_step (mkGlobals [sample_world; sample_temp] None sample_params
                   0 0 None None None 0 None)
      (Dist_head sample_params 0 1 0)
    = [(g1, Dist_copy sample_params 0 1 0)] ∧
    g1 = with_heap (<[1%nat := next_grid sample_params sample_world]>
                      [sample_world; sample_temp])
           (mkGlobals [sample_world; sample_temp] None sample_params
              0 0 None None None 0 None) ∧
    heap g1 !! 0%nat = Some sample_world ∧
    heap g1 !! 1%nat = Some (next_grid sample_params sample_world) ∧
    thread_step g1 (Dist_copy sample_params 0 1 0)
    = [(g2, Dist_head sample_params 0 1 (0 + 1))] ∧
    heap g2 !! 0%nat = Some (next_grid sample_params sample_world) ∧
    WORLD g2 = Some 0%nat ∧
    ALIVECELLS g2 = count_alive (next_grid sample_params sample_world) ∧
    COMPLETEDTURNS g2 = int_add 0 1.
Proof.
  apply (generation_reads_then_overwrites
           (mkGlobals [sample_world; sample_temp] None sample_params
              0 0 None None None 0 None)
           sample_params 0 1 0 sample_world sample_temp).
  - reflexivity.
  - reflexivity.
  - lia.
  - apply sample_world_well_formed.
  - reflexivity.
  - reflexivity.
  - reflexivity.
  - simpl; lia.
Defined.

(** C7 fails as stated: after the first generation of a run on the
    sample, the slice [Start] was given ([args.World], at location 0) no
    longer holds the cells it held: cell (0, 0) was dead and is now
    alive. *)
Lemma generation_overwrites_input :
  ∃ s w',
    run [(0, 0); (0, 0); (0, 0)]%nat sample_single = Some s ∧
    heap (globals s) !! 0%nat = Some w' ∧
    get_cell sample_world 0 0 = Some 0 ∧
    get_cell w' 0 0 = Some 255.
Proof.
  eexists _, _. split; [vm_compute; reflexivity |].
  split_and!; reflexivity.
Qed.

(** ** The model at work *)

Example mod_int_wraps_below : mod_int (-1) 3 = Some 2.
Proof. reflexivity. Qed.

Example mod_int_wraps_above : mod_int 3 3 = Some 0.
Proof. reflexivity. Qed.

Example mod_int_zero_divisor : mod_int 1 0 = None.
Proof. reflexivity. Qed.

Example get_cell_outside : get_cell sample_world 3 0 = None.
Proof. reflexivity. Qed.

Example aliveNeighbours_sample :
  aliveNeighbours sample_world 1 0 sample_params = Some 3.
Proof. reflexivity. Qed.

Example alive_neighbour_count_sample :
  alive_neighbour_count sample_params sample_world 1 0 = 3.
Proof. reflexivity. Qed.

Example generation_sample :
  generation sample_params sample_world sample_temp
  = Some (sample_alive, sample_alive).
Proof. reflexivity. Qed.

Example getNumAliveCells_sample :
  getNumAliveCells sample_params sample_alive = Some 9.
Proof. reflexivity. Qed.

(** A grid smaller than the parameters say makes the loop panic. *)
Example generation_panics_on_short_grid :
  generation (mkParams 1 1 3 4) sample_world sample_temp = None.
Proof. reflexivity. Qed.

(** The sample run ends completed, after two generations. *)
Example sample_run_completes :
  ∃ s, run sample_schedule sample_start = Some s ∧
       run_completed 1 sample_temp s ∧
       generations sample_params sample_world 2 = sample_temp.
Proof.
  eexists. split; [vm_compute; reflexivity |].
  split; [| reflexivity]. unfold run_completed. split_and!; reflexivity.
Qed.

(** The sample cancellation ends completed. *)
Example sample_cancel_completes :
  ∃ s, run sample_cancel_schedule sample_cancel = Some s ∧
       cancel_completed 1 sample_temp s.
Proof.
  eexists. split; [vm_compute; reflexivity |].
  unfold cancel_completed. split_and!; reflexivity.
Qed.

(** A second [Pause] blocks while the first signal is still buffered. *)
Example second_pause_blocks :
  thread_step (with_PAUSECHANNEL (Some true) init_globals) Pause_entry = [].
Proof. reflexivity. Qed.

(** * Further properties *)

(** ** The stepper's helpers *)

(** X1. [mod(x, m)] with a positive [m] and [x] no lower than [-m] (and
    [x + m] within [int]) is the mathematical [x mod m], in [0, m): an
    index one extent below zero, or any number of extents above, is
    brought back into range. *)
Theorem mod_int_in_range x m :
  0 < m → - m ≤ x → x + m < 2 ^ 63 →
  mod_int x m = Some (x `mod` m) ∧ 0 ≤ x `mod` m < m.
Proof.
  intros Hm Hx Hmax.
  assert (0 < 2 ^ 63) by (by apply Z.pow_pos_nonneg).
  unfold mod_int. rewrite decide_False by lia.
  rewrite int_add_small by lia.
  split; [| apply Z.mod_pos_bound; lia].
  f_equal. rewrite Z.rem_mod_nonneg by lia.
  replace (x + m) with (x + 1 * m) by lia.
  apply Z.mod_add. lia.
Qed.

Lemma mod_int_in_range_witness :
  mod_int 7 3 = Some (7 `mod` 3) ∧ 0 ≤ 7 `mod` 3 < 3.
Proof.
  apply (mod_int_in_range 7 3).
  - lia.
  - lia.
  - by vm_compute.
Defined.

(** X2. [mod(x, m)] with a positive [m] and [x] lower than [-m] does not
    wrap: Go's [%] truncates, so the result lies in (-m, 0], and it is not
    [x mod m] unless [m] divides [x]. *)
Theorem mod_int_below_range x m :
  0 < m → x < - m → - 2 ^ 63 ≤ x + m →
  ∃ r, mod_int x m = Some r ∧ - m < r ≤ 0 ∧
       (r = x `mod` m ↔ x `mod` m = 0).
Proof.
  intros Hm Hx Hmin.
  assert (0 < 2 ^ 63) by (by apply Z.pow_pos_nonneg).
  unfold mod_int. rewrite decide_False by lia.
  rewrite int_add_small by lia.
  eexists. split; [done |].
  pose proof (Z.rem_bound_pos_neg (x + m) m Hm) as Hb.
  split; [apply Hb; lia |].
  pose proof (Z.mod_pos_bound x m Hm) as Hmod.
  split.
  - intros Heq. specialize (Hb ltac:(lia)). lia.
  - intros Hz. rewrite Hz.
    apply Z.rem_divide; [lia |].
    apply Z.mod_divide in Hz; [| lia].
    apply Z.divide_add_r; [done | apply Z.divide_refl].
Qed.

Lemma mod_int_below_range_witness :
  ∃ r, mod_int (-4) 3 = Some r ∧ - 3 < r ≤ 0 ∧
       (r = (-4) `mod` 3 ↔ (-4) `mod` 3 = 0).
Proof.
  apply (mod_int_below_range (-4) 3).
  - lia.
  - lia.
  - by vm_compute.
Defined.

(** X3. On a grid of the parameters' dimensions and at a cell of it,
    whatever bytes the cells hold, [aliveNeighbours] returns a count between
    0 and 8. *)
Theorem aliveNeighbours_at_most_eight p (w : grid) y x :
  has_dims p w → 0 ≤ y < ImageHeight p → 0 ≤ x < ImageWidth p →
  ∃ n, aliveNeighbours w y x p = Some n ∧ 0 ≤ n ≤ 8.
Proof.
  intros Hd Hy Hx. rewrite aliveNeighbours_nonzero by done.
  eexists. split; [done |]. unfold nonzero_neighbour_count.
  pose proof (length_filter
    (λ o, nonzero w (torus_neighbour p y x o)) offsets) as Hle.
  change (length offsets) with 8%nat in Hle. lia.
Qed.

Lemma aliveNeighbours_at_most_eight_witness :
  ∃ n, aliveNeighbours sample_bytes 1 1 sample_params = Some n ∧ 0 ≤ n ≤ 8.
Proof.
  apply (aliveNeighbours_at_most_eight sample_params sample_bytes 1 1).
  - unfold has_dims. split_and!.
    + reflexivity.
    + repeat first [apply Forall_nil_2 | apply Forall_cons_2]; reflexivity.
    + by vm_compute.
  - simpl; lia.
  - simpl; lia.
Defined.

(** X4. [getNumAliveCells] on a grid of the parameters' dimensions,
    whatever bytes the cells hold, returns without a panic the number of
    cells equal to 255, which is at most height * width. *)
Theorem getNumAliveCells_counts_alive p (w : grid) :
  has_dims p w →
  getNumAliveCells p w = Some (count_alive w) ∧
  0 ≤ count_alive w ≤ ImageHeight p * ImageWidth p.
Proof.
  intros Hd. split; [by apply getNumAliveCells_count |].
  rewrite <- (has_dims_cells p w Hd). apply count_alive_bound.
Qed.

Lemma sample_bytes_dims : has_dims sample_params sample_bytes.
Proof.
  unfold has_dims. split_and!.
  - reflexivity.
  - repeat first [apply Forall_nil_2 | apply Forall_cons_2]; reflexivity.
  - by vm_compute.
Qed.

Lemma getNumAliveCells_counts_alive_witness :
  getNumAliveCells sample_params sample_bytes
  = Some (count_alive sample_bytes) ∧
  0 ≤ count_alive sample_bytes
    ≤ ImageHeight sample_params * ImageWidth sample_params.
Proof.
  apply (getNumAliveCells_counts_alive sample_params sample_bytes).
  apply sample_bytes_dims.
Defined.

(** ** One generation *)

(** X5. One generation on a grid of the parameters' dimensions, whatever
    bytes its cells hold, succeeds and leaves in [world] and in [tempWorld]
    the same grid, of the same dimensions, every cell of which is 0 or
    255: the loop never writes another value. *)
Theorem generation_writes_binary p (w t : grid) :
  has_dims p w → length <$> t = length <$> w →
  ∃ w', generation p w t = Some (w', w') ∧ has_dims p w' ∧ binary w'.
Proof.
  intros Hd Hs. exists (next_grid p w).
  split; [by apply generation_next |].
  split; [by apply next_grid_dims | apply next_grid_binary].
Qed.

Lemma generation_writes_binary_witness :
  ∃ w', generation sample_params sample_bytes sample_temp = Some (w', w') ∧
        has_dims sample_params w' ∧ binary w'.
Proof.
  apply (generation_writes_binary sample_params sample_bytes sample_temp).
  - apply sample_bytes_dims.
  - reflexivity.
Defined.

(** X6. What one generation leaves does not depend on what [tempWorld]
    held before: the loop may reuse the scratch grid from turn to turn. *)
Theorem generation_ignores_scratch p (w t1 t2 : grid) :
  has_dims p w →
  length <$> t1 = length <$> w → length <$> t2 = length <$> w →
  is_Some (generation p w t1) ∧ generation p w t1 = generation p w t2.
Proof.
  intros Hd H1 H2. rewrite !generation_next by done. split; [by eexists | done].
Qed.

Lemma generation_ignores_scratch_witness :
  is_Some (generation sample_params sample_world sample_temp) ∧
  generation sample_params sample_world sample_temp
  = generation sample_params sample_world sample_alive.
Proof.
  apply (generation_ignores_scratch sample_params sample_world
           sample_temp sample_alive).
  - apply sample_world_well_formed.
  - reflexivity.
  - reflexivity.
Defined.

Lemma all_dead_cell (w : grid) y x c :
  all_dead w → get_cell w y x = Some c → c = 0.
Proof.
  intros Hb Hc. apply get_cell_Some in Hc as (_ & _ & row & Hr & Hc).
  unfold all_dead in Hb. rewrite Forall_lookup in Hb.
  specialize (Hb _ _ Hr). rewrite Forall_lookup in Hb. eauto.
Qed.

Lemma all_dead_nonzero (w : grid) yx : all_dead w → nonzero w yx = false.
Proof.
  intros Hdead. unfold nonzero.
  destruct (get_cell w yx.1 yx.2) as [c|] eqn:Hc; [| done].
  rewrite (all_dead_cell _ _ _ _ Hdead Hc).
  by apply bool_decide_eq_false_2; intros Hne.
Qed.

Lemma filter_none {A} (P : A → Prop) `{∀ x, Decision (P x)} (l : list A) :
  Forall (λ x, ¬ P x) l → filter P l = [].
Proof.
  induction 1 as [|x l Hx Hl IH]; [done |].
  by rewrite filter_cons, decide_False.
Qed.

Lemma all_dead_count p (w : grid) y x :
  all_dead w → nonzero_neighbour_count p w y x = 0.
Proof.
  intros Hdead. unfold nonzero_neighbour_count.
  assert (filter (λ o, nonzero w (torus_neighbour p y x o)) offsets = [])
    as ->; [| done].
  apply filter_none, Forall_forall. intros o _.
  rewrite all_dead_nonzero by done. by intros [].
Qed.

(** X7. A grid without alive cells stays as it is: one generation on a
    grid of zeros of the parameters' dimensions leaves that grid, and the
    count published after it is zero. *)
Theorem dead_grid_stays_dead p (w t : grid) :
  has_dims p w → all_dead w → length <$> t = length <$> w →
  generation p w t = Some (w, w) ∧ getNumAliveCells p w = Some 0.
Proof.
  intros Hd Hdead Hs.
  assert (next_grid p w = w) as Hnext.
  { apply grid_ext; [apply next_grid_shape |].
    intros y x. rewrite next_grid_cell.
    destruct (get_cell w (Z.of_nat y) (Z.of_nat x)) as [c|] eqn:Hc; [| done].
    simpl. rewrite (all_dead_cell _ _ _ _ Hdead Hc).
    by rewrite all_dead_count. }
  split.
  - rewrite generation_next by done. by rewrite Hnext.
  - rewrite getNumAliveCells_count by done. f_equal.
    unfold count_alive.
    assert (filter (λ c, c = 255) (concat w) = []) as ->; [| done].
    apply filter_none, Forall_concat.
    unfold all_dead in Hdead.
    eapply Forall_impl; [done |]. intros row Hrow. simpl in Hrow.
    eapply Forall_impl; [done |]. simpl. intros c ->. done.
Qed.

Lemma dead_grid_stays_dead_witness :
  generation sample_params sample_temp sample_alive
  = Some (sample_temp, sample_temp) ∧
  getNumAliveCells sample_params sample_temp = Some 0.
Proof.
  apply (dead_grid_stays_dead sample_params sample_temp sample_alive).
  - unfold has_dims. split_and!.
    + reflexivity.
    + repeat first [apply Forall_nil_2 | apply Forall_cons_2]; reflexivity.
    + by vm_compute.
  - repeat first [apply Forall_nil_2 | apply Forall_cons_2]; reflexivity.
  - reflexivity.
Defined.

Lemma for_upto_first_panics {S} (body : Z → S → option S) lo hi s :
  lo < hi → body lo s = None → for_upto lo hi body s = None.
Proof.
  intros Hlt Hb. unfold for_upto.
  destruct (Z.to_nat (hi - lo)) as [|n] eqn:Hn; [lia |].
  simpl. by rewrite Hb.
Qed.

(** X8. When the grid has fewer rows than [ImageHeight] says (and the
    width is positive), the first neighbour count of the generation indexes
    row [ImageHeight - 1], which does not exist: the generation panics. *)
Theorem generation_panics_on_missing_rows p (w t : grid) :
  0 < ImageWidth p ≤ max_alloc →
  Z.of_nat (length w) < ImageHeight p ≤ max_alloc →
  generation p w t = None.
Proof.
  intros Hw Hh. unfold generation.
  assert (compute_temp p w t = None) as ->; [| done].
  unfold compute_temp.
  apply for_upto_first_panics; [lia |].
  apply for_upto_first_panics; [lia |].
  assert (aliveNeighbours w 0 0 p = None) as ->; [| done].
  unfold aliveNeighbours.
  apply for_upto_first_panics; [lia |].
  apply for_upto_first_panics; [lia |].
  rewrite decide_True by lia.
  destruct (mod_int_torus 0 (-1) (ImageHeight p)) as [-> Hy]; [lia.. |].
  destruct (mod_int_torus 0 (-1) (ImageWidth p)) as [-> Hx]; [lia.. |].
  simpl.
  assert (get_cell w ((0 + -1) `mod` ImageHeight p)
            ((0 + -1) `mod` ImageWidth p) = None) as ->; [| done].
  unfold get_cell.
  assert (index w ((0 + -1) `mod` ImageHeight p) = None) as ->; [| done].
  apply eq_None_not_Some. rewrite index_in_range.
  assert ((0 + -1) `mod` ImageHeight p = ImageHeight p - 1) as ->; [| lia].
  replace (0 + -1) with (ImageHeight p - 1 + (-1) * ImageHeight p) by lia.
  rewrite Z.mod_add by lia. apply Z.mod_small. lia.
Qed.

Lemma generation_panics_on_missing_rows_witness :
  generation (mkParams 1 1 3 4) sample_world sample_temp = None.
Proof.
  apply (generation_panics_on_missing_rows (mkParams 1 1 3 4)
           sample_world sample_temp).
  - simpl. split; [lia | by vm_compute].
  - simpl. split; [lia | by vm_compute].
Defined.

(** ** The loop on its own *)

(** A pool of one thread whose step has one outcome has one step. *)
Lemma single_thread_step g t g1 t1 s' :
  t ≠ Panicked → thread_step g t = [(g1, t1)] →
  engine_step (mkSystem g [t]) s' ↔ s' = mkSystem g1 [t1].
Proof.
  intros Hp Hstep. split.
  - intros [(g' & d' & Hin & ->) | (j & ? & ? & ? & Hj & _)]%engine_step_cons_inv;
      [| by destruct j].
    rewrite Hstep in Hin. apply list_elem_of_singleton in Hin.
    by injection Hin as -> ->.
  - intros ->. apply engine_step_head.
    + by intros [? | Hin]%elem_of_cons; [| inversion Hin].
    + rewrite Hstep. by left.
Qed.

Lemma single_thread_nsteps g t g1 t1 n s :
  t ≠ Panicked → thread_step g t = [(g1, t1)] →
  nsteps engine_step (Datatypes.S n) (mkSystem g [t]) s
  ↔ nsteps engine_step n (mkSystem g1 [t1]) s.
Proof.
  intros Hp Hstep. split.
  - inversion 1 as [| ? ? s1 ? Hs Hn]; subst.
    by apply (single_thread_step _ _ _ _ _ Hp Hstep) in Hs as ->.
  - intros Hn. eapply nsteps_l; [| done].
    by apply (single_thread_step g t g1 t1).
Qed.

(** One generation of a loop that runs alone with no signal pending. *)
Lemma single_thread_generation g p wl tl k (w t : grid) n s :
  PAUSECHANNEL g = None → CANCELCHANNEL g = None → k < Turns p →
  heap g !! wl = Some w → heap g !! tl = Some t → wl ≠ tl →
  has_dims p w → length <$> t = length <$> w →
  nsteps engine_step (Datatypes.S (Datatypes.S n))
    (mkSystem g [Dist_head p wl tl k]) s
  ↔ nsteps engine_step n
      (mkSystem
         (with_progress (count_alive (next_grid p w)) (int_add k 1)
            (with_WORLD (Some wl)
               (with_heap
                  (<[wl := next_grid p w]>
                     (<[tl := next_grid p w]> (heap g))) g)))
         [Dist_head p wl tl (k + 1)]) s.
Proof.
  intros Hp Hc Hk Hw Ht Hne Hd Hs.
  pose proof (lookup_lt_Some _ _ _ Hw) as Hlw.
  pose proof (lookup_lt_Some _ _ _ Ht) as Hlt.
  rewrite (single_thread_nsteps g _
    (with_heap (<[tl := next_grid p w]> (heap g)) g)
    (Dist_copy p wl tl k)); [| done |].
  - apply single_thread_nsteps; [done |]. simpl.
    rewrite (default_publish_next _ _ _ _ _ w (next_grid p w)); [done | ..].
    + simpl. by rewrite list_lookup_insert_ne.
    + simpl. by apply list_lookup_insert_eq.
    + by apply next_grid_dims.
    + by rewrite next_grid_shape.
  - simpl. unfold select_cases. rewrite Hc, Hp. simpl.
    rewrite decide_True by done.
    by rewrite (default_compute_next _ _ _ _ _ w t).
Qed.

(** The end of a loop that has no turn left and no waiter to serve. *)
Lemma single_thread_finish g p wl tl k (w : grid) s :
  ¬ k < Turns p → NUMBEROFCONTINUES g = 0 → heap g !! wl = Some w →
  nsteps engine_step 3 (mkSystem g [Dist_head p wl tl k]) s
  ↔ s = mkSystem
          (with_WORLD (Some wl)
             (with_NUMBEROFCONTINUES 0 (with_progress 0 0 g)))
          [Done (RWorld w)].
Proof.
  intros Hk Hn Hw.
  rewrite (single_thread_nsteps g _ (with_progress 0 0 g)
             (Dist_final_send wl 0));
    [| done | by simpl; rewrite decide_False].
  rewrite (single_thread_nsteps _ _
             (with_NUMBEROFCONTINUES 0 (with_progress 0 0 g))
             (Start_return wl));
    [| done | by simpl; unfold drain; simpl; rewrite Hn, decide_False by lia].
  rewrite (single_thread_nsteps _ _
             (with_WORLD (Some wl)
                (with_NUMBEROFCONTINUES 0 (with_progress 0 0 g)))
             (Done (RWorld w)));
    [| done | by simpl; rewrite Hw].
  split; [by inversion 1 | intros ->; constructor].
Qed.

Lemma generations_succ_r p (w : grid) r :
  generations p (next_grid p w) r = generations p w (Datatypes.S r).
Proof. unfold generations. by rewrite Nat.iter_succ_r. Qed.

Lemma single_thread_run p wl tl r :
  ∀ g k (w t : grid),
  PAUSECHANNEL g = None → CANCELCHANNEL g = None →
  NUMBEROFCONTINUES g = 0 →
  heap g !! wl = Some w → heap g !! tl = Some t → wl ≠ tl →
  has_dims p w → length <$> t = length <$> w →
  r = Z.to_nat (Turns p - k) →
  ∃ g',
    (∀ s, nsteps engine_step (2 * r + 3) (mkSystem g [Dist_head p wl tl k]) s
          ↔ s = mkSystem g' [Done (RWorld (generations p w r))]) ∧
    heap g' !! wl = Some (generations p w r) ∧ WORLD g' = Some wl ∧
    ALIVECELLS g' = 0 ∧ COMPLETEDTURNS g' = 0.
Proof.
  induction r as [|r IH]; intros g k w t Hp Hc Hn Hw Ht Hne Hd Hs Hr.
  - eexists. split; [| split_and!].
    + intros s. apply single_thread_finish; [lia | done | done].
    + done.
    + done.
    + done.
    + done.
  - pose proof (lookup_lt_Some _ _ _ Hw) as Hlw.
    pose proof (lookup_lt_Some _ _ _ Ht) as Hlt.
    destruct (IH
      (with_progress (count_alive (next_grid p w)) (int_add k 1)
         (with_WORLD (Some wl)
            (with_heap
               (<[wl := next_grid p w]>
                  (<[tl := next_grid p w]> (heap g))) g)))
      (k + 1) (next_grid p w) (next_grid p w))
      as (g' & Hrun & Hh' & Hw' & Ha' & Hc'); try done.
    + simpl. apply list_lookup_insert_eq. by rewrite length_insert.
    + simpl. rewrite list_lookup_insert_ne by done.
      by apply list_lookup_insert_eq.
    + by apply next_grid_dims.
    + lia.
    + exists g'. rewrite <- generations_succ_r. split; [| done].
      intros s. rewrite <- Hrun.
      replace (2 * Datatypes.S r + 3)%nat
        with (Datatypes.S (Datatypes.S (2 * r + 3))) by lia.
      apply (single_thread_generation g p wl tl k w t); try done. lia.
Qed.

(** X9. A loop that runs alone from the head of turn [k] on a grid of the
    parameters' dimensions, with no signal pending and no waiter
    registered, has exactly one execution: after two steps for each of the
    [Turns - k] turns left and three more, [Start] has returned the grid
    reached by that many generations, [WORLD] refers to it and Progress is
    reset to {0, 0}. With no turn left ([k] at or beyond [Turns]) the
    grid is returned as it is. *)
Theorem loop_runs_remaining_turns g p wl tl k (w t : grid) :
  PAUSECHANNEL g = None → CANCELCHANNEL g = None →
  NUMBEROFCONTINUES g = 0 →
  heap g !! wl = Some w → heap g !! tl = Some t → wl ≠ tl →
  has_dims p w → length <$> t = length <$> w →
  ∃ g',
    (∀ s, nsteps engine_step (2 * Z.to_nat (Turns p - k) + 3)
            (mkSystem g [Dist_head p wl tl k]) s
          ↔ s = mkSystem g'
                  [Done (RWorld (generations p w (Z.to_nat (Turns p - k))))]) ∧
    heap g' !! wl = Some (generations p w (Z.to_nat (Turns p - k))) ∧
    WORLD g' = Some wl ∧ ALIVECELLS g' = 0 ∧ COMPLETEDTURNS g' = 0.
Proof.
  intros. by eapply single_thread_run.
Qed.

Lemma loop_runs_remaining_turns_witness :
  ∃ g',
    (∀ s, nsteps engine_step (2 * Z.to_nat (Turns sample_params - 0) + 3)
            (mkSystem sample_loop_globals [Dist_head sample_params 0 1 0]) s
          ↔ s = mkSystem g'
                  [Done (RWorld (generations sample_params sample_world
                                   (Z.to_nat (Turns sample_params - 0))))]) ∧
    heap g' !! 0%nat
    = Some (generations sample_params sample_world
              (Z.to_nat (Turns sample_params - 0))) ∧
    WORLD g' = Some 0%nat ∧ ALIVECELLS g' = 0 ∧ COMPLETEDTURNS g' = 0.
Proof.
  apply (loop_runs_remaining_turns sample_loop_globals sample_params 0 1 0
           sample_world sample_temp).
  - reflexivity.
  - reflexivity.
  - reflexivity.
  - reflexivity.
  - reflexivity.
  - lia.
  - apply sample_world_well_formed.
  - reflexivity.
Defined.

(** ** Signals and turns *)

Lemma loop_runs_remaining_single g p wl tl k (w t : grid) :
  PAUSECHANNEL g = Some false → CANCELCHANNEL g = None →
  NUMBEROFCONTINUES g = 0 →
  heap g !! wl = Some w → heap g !! tl = Some t → wl ≠ tl →
  has_dims p w → length <$> t = length <$> w →
  ∃ g',
    ∀ s, nsteps engine_step (2 * Z.to_nat (Turns p - k) + 3)
           (mkSystem (with_PAUSECHANNEL None g) [Dist_head p wl tl k]) s
         ↔ s = mkSystem g'
                 [Done (RWorld (generations p w (Z.to_nat (Turns p - k))))].
Proof.
  intros Hp Hc Hn Hw Ht Hne Hd Hs.
  destruct (single_thread_run p wl tl (Z.to_nat (Turns p - k))
              (with_PAUSECHANNEL None g) k w t)
    as (g' & Hrun & _); try done.
  by exists g'.
Qed.

(** X10. A turn in which the loop receives from [PAUSECHANNEL] computes no
    generation. With the resume signal [false] in the channel, a loop at
    the head of turn [k] (a stray [Execute]) or paused in turn [k] goes on
    at turn [k + 1] with the grid and Progress as they were; running alone
    from there, it returns the grid after [Turns - (k + 1)] generations,
    one fewer than the turns it had left. *)
Theorem resume_signal_costs_a_turn g p wl tl k d (w t : grid) :
  d = Dist_head p wl tl k ∨ d = Dist_paused p wl tl k →
  PAUSECHANNEL g = Some false → CANCELCHANNEL g = None → k < Turns p →
  NUMBEROFCONTINUES g = 0 →
  heap g !! wl = Some w → heap g !! tl = Some t → wl ≠ tl →
  has_dims p w → length <$> t = length <$> w →
  thread_step g d
  = [(with_PAUSECHANNEL None g, Dist_head p wl tl (k + 1))] ∧
  Z.to_nat (Turns p - k) = Datatypes.S (Z.to_nat (Turns p - (k + 1))) ∧
  ∃ g',
    (∀ s, nsteps engine_step
            (Datatypes.S (2 * Z.to_nat (Turns p - (k + 1)) + 3))
            (mkSystem g [d]) s
          ↔ s = mkSystem g'
                  [Done (RWorld (generations p w
                                   (Z.to_nat (Turns p - (k + 1)))))]).
Proof.
  intros Hd Hp Hc Hk Hn Hw Ht Hne Hdims Hs.
  assert (thread_step g d
          = [(with_PAUSECHANNEL None g, Dist_head p wl tl (k + 1))]) as Hstep.
  { destruct Hd as [-> | ->]; simpl.
    - unfold select_cases. rewrite Hc, Hp. simpl.
      by rewrite decide_True by done.
    - by rewrite Hp. }
  split; [done |]. split; [lia |].
  destruct (loop_runs_remaining_single g p wl tl (k + 1) w t)
    as (g' & Hrun); try done.
  exists g'. intros s. rewrite <- Hrun.
  apply single_thread_nsteps; [| done].
  by destruct Hd as [-> | ->].
Qed.

Lemma resume_signal_costs_a_turn_witness :
  thread_step (with_PAUSECHANNEL (Some false) sample_loop_globals)
    (Dist_paused sample_params 0 1 0)
  = [(with_PAUSECHANNEL None
        (with_PAUSECHANNEL (Some false) sample_loop_globals),
      Dist_head sample_params 0 1 (0 + 1))] ∧
  Z.to_nat (Turns sample_params - 0)
  = Datatypes.S (Z.to_nat (Turns sample_params - (0 + 1))) ∧
  ∃ g',
    (∀ s, nsteps engine_step
            (Datatypes.S (2 * Z.to_nat (Turns sample_params - (0 + 1)) + 3))
            (mkSystem (with_PAUSECHANNEL (Some false) sample_loop_globals)
               [Dist_paused sample_params 0 1 0]) s
          ↔ s = mkSystem g'
                  [Done (RWorld (generations sample_params sample_world
                     (Z.to_nat (Turns sample_params - (0 + 1)))))]).
Proof.
  apply (resume_signal_costs_a_turn
           (with_PAUSECHANNEL (Some false) sample_loop_globals)
           sample_params 0 1 0 (Dist_paused sample_params 0 1 0)
           sample_world sample_temp).
  - by right.
  - reflexivity.
  - reflexivity.
  - simpl; lia.
  - reflexivity.
  - reflexivity.
  - reflexivity.
  - lia.
  - apply sample_world_well_formed.
  - reflexivity.
Defined.

(** A pool of two threads the second of which is blocked. *)
Lemma blocked_second_step g d a g1 d1 s' :
  d ≠ Panicked → a ≠ Panicked →
  thread_step g d = [(g1, d1)] → thread_step g a = [] →
  engine_step (mkSystem g [d; a]) s' ↔ s' = mkSystem g1 [d1; a].
Proof.
  intros Hd Ha Hstep Hblocked. split.
  - intros [(g' & d' & Hin & ->)
           | [(g' & a' & Hin & ->)
             | (j & ? & ? & ? & Hj & _)]]%engine_step_cons2_inv.
    + rewrite Hstep in Hin. apply list_elem_of_singleton in Hin.
      by injection Hin as -> ->.
    + rewrite Hblocked in Hin. by inversion Hin.
    + by destruct j.
  - intros ->. apply engine_step_head.
    + intros [? | [? | Hin]%elem_of_cons]%elem_of_cons; [done | done |].
      by inversion Hin.
    + rewrite Hstep. by left.
Qed.

Lemma blocked_second_nsteps g d a g1 d1 n s :
  d ≠ Panicked → a ≠ Panicked →
  thread_step g d = [(g1, d1)] → thread_step g a = [] →
  nsteps engine_step (Datatypes.S n) (mkSystem g [d; a]) s
  ↔ nsteps engine_step n (mkSystem g1 [d1; a]) s.
Proof.
  intros Hd Ha Hstep Hblocked. split.
  - inversion 1 as [| ? ? s1 ? Hs Hn]; subst.
    by apply (blocked_second_step _ _ _ _ _ _ Hd Ha Hstep Hblocked) in Hs as ->.
  - intros Hn. eapply nsteps_l; [| done].
    by apply (blocked_second_step g d a g1 d1).
Qed.

Lemma both_blocked g d a s' :
  thread_step g d = [] → thread_step g a = [] →
  ¬ engine_step (mkSystem g [d; a]) s'.
Proof.
  intros Hd Ha
    [(g' & d' & Hin & ->)
    | [(g' & a' & Hin & ->)
      | (j & ? & ? & ? & Hj & _)]]%engine_step_cons2_inv.
  - rewrite Hd in Hin. by inversion Hin.
  - rewrite Ha in Hin. by inversion Hin.
  - by destruct j.
Qed.

(** X11. A cancel signal that reaches the loop after its last turn is
    never observed. With the loop at the head of a turn that is not below
    [Turns], the signal pending, the sender blocked on
    [DONECANCELINGCHANNEL] and no waiter registered: the engine takes
    exactly three steps, all of the loop, which ends as usual and returns
    the grid; the signal is left in [CANCELCHANNEL], nothing is ever sent
    on [DONECANCELINGCHANNEL], and the engine stops with the call of
    [IsAlreadyRunning] still blocked. *)
Theorem late_cancel_is_never_confirmed g p wl tl k b (w : grid) n s :
  ¬ k < Turns p → CANCELCHANNEL g = Some b →
  DONECANCELINGCHANNEL g = None → NUMBEROFCONTINUES g = 0 →
  heap g !! wl = Some w →
  nsteps engine_step n
    (mkSystem g [Dist_head p wl tl k; IsAlreadyRunning_wait]) s →
  (n ≤ 3)%nat ∧
  pool s !! 1%nat = Some IsAlreadyRunning_wait ∧
  CANCELCHANNEL (globals s) = Some b ∧
  DONECANCELINGCHANNEL (globals s) = None ∧
  ((n < 3)%nat → ∃ s', engine_step s s') ∧
  (n = 3%nat →
   pool s !! 0%nat = Some (Done (RWorld w)) ∧ ∀ s', ¬ engine_step s s').
Proof.
  intros Hk Hc Hdn Hn Hw Hsteps.
  pose (g1 := with_progress 0 0 g).
  pose (g2 := with_NUMBEROFCONTINUES 0 g1).
  pose (g3 := with_WORLD (Some wl) g2).
  assert (thread_step g (Dist_head p wl tl k)
          = [(g1, Dist_final_send wl 0)]) as H1.
  { simpl. by rewrite decide_False. }
  assert (thread_step g1 (Dist_final_send wl 0)
          = [(g2, Start_return wl)]) as H2.
  { simpl. unfold drain. simpl. by rewrite Hn, decide_False by lia. }
  assert (thread_step g2 (Start_return wl)
          = [(g3, Done (RWorld w))]) as H3.
  { simpl. by rewrite Hw. }
  assert (∀ g', DONECANCELINGCHANNEL g' = None →
                thread_step g' IsAlreadyRunning_wait = []) as Hblocked.
  { intros g' Hg'. simpl. by rewrite Hg'. }
  assert (∀ n s,
    nsteps engine_step (Datatypes.S n)
      (mkSystem g [Dist_head p wl tl k; IsAlreadyRunning_wait]) s
    ↔ nsteps engine_step n
        (mkSystem g1 [Dist_final_send wl 0; IsAlreadyRunning_wait]) s) as E1.
  { intros. apply blocked_second_nsteps; [done | done | done |].
    by apply Hblocked. }
  assert (∀ n s,
    nsteps engine_step (Datatypes.S n)
      (mkSystem g1 [Dist_final_send wl 0; IsAlreadyRunning_wait]) s
    ↔ nsteps engine_step n
        (mkSystem g2 [Start_return wl; IsAlreadyRunning_wait]) s) as E2.
  { intros. apply blocked_second_nsteps; [done | done | done |].
    by apply Hblocked. }
  assert (∀ n s,
    nsteps engine_step (Datatypes.S n)
      (mkSystem g2 [Start_return wl; IsAlreadyRunning_wait]) s
    ↔ nsteps engine_step n
        (mkSystem g3 [Done (RWorld w); IsAlreadyRunning_wait]) s) as E3.
  { intros. apply blocked_second_nsteps; [done | done | done |].
    by apply Hblocked. }
  destruct n as [|[|[|[|n]]]].
  - inversion Hsteps; subst. simpl.
    split_and!; [lia | done.. | | lia].
    intros _. apply head_enabled; [| by rewrite H1].
    by apply (pool2_no_panic w), Forall_nil_2.
  - apply E1 in Hsteps. inversion Hsteps; subst. simpl.
    split_and!; [lia | done.. | | lia].
    intros _. apply head_enabled; [| by rewrite H2].
    by apply (pool2_no_panic w), Forall_nil_2.
  - apply E1, E2 in Hsteps. inversion Hsteps; subst. simpl.
    split_and!; [lia | done.. | | lia].
    intros _. apply head_enabled; [| by rewrite H3].
    by apply (pool2_no_panic w), Forall_nil_2.
  - apply E1, E2, E3 in Hsteps. inversion Hsteps; subst. simpl.
    split_and!; [lia | done.. | lia |].
    intros _. split; [done |]. intros s'.
    apply both_blocked; [done | by apply Hblocked].
  - exfalso. apply E1, E2, E3 in Hsteps.
    inversion Hsteps as [| ? ? s1 ? Hs _]; subst.
    by apply both_blocked in Hs; [| | apply Hblocked].
Qed.

Lemma late_cancel_is_never_confirmed_witness :
  ∃ s,
    nsteps engine_step 3 sample_late_cancel s ∧
    (3 ≤ 3)%nat ∧
    pool s !! 1%nat = Some IsAlreadyRunning_wait ∧
    CANCELCHANNEL (globals s) = Some true ∧
    DONECANCELINGCHANNEL (globals s) = None ∧
    ((3 < 3)%nat → ∃ s', engine_step s s') ∧
    (3%nat = 3%nat →
     pool s !! 0%nat = Some (Done (RWorld sample_temp)) ∧
     ∀ s', ¬ engine_step s s').
Proof.
  eexists. split.
  - apply (run_nsteps [(0, 0); (0, 0); (0, 0)]%nat). vm_compute. reflexivity.
  - apply (late_cancel_is_never_confirmed (globals sample_late_cancel)
             sample_params 0 1 2 true sample_temp 3).
    + simpl; lia.
    + reflexivity.
    + reflexivity.
    + reflexivity.
    + reflexivity.
    + apply (run_nsteps [(0, 0); (0, 0); (0, 0)]%nat).
      vm_compute. reflexivity.
Defined.

(** X12. A cancel signal left in [CANCELCHANNEL] ends the next run before
    its first generation. [Start(p, grid)] with at least one turn to make,
    a grid of the parameters' dimensions, a cancel signal pending and no
    waiter registered has exactly one execution, of five steps: it returns
    the grid it was given, unchanged, with Progress {0, 0}, and leaves a
    confirmation in [DONECANCELINGCHANNEL] that nobody is waiting for. *)
Theorem pending_cancel_ends_next_start g p b (w0 : grid) :
  has_dims p w0 → 0 < Turns p →
  CANCELCHANNEL g = Some b → PAUSECHANNEL g = None →
  NUMBEROFCONTINUES g = 0 → DONECANCELINGCHANNEL g = None →
  ∃ g',
    (∀ s, nsteps engine_step 5 (mkSystem g [Start_entry p w0]) s
          ↔ s = mkSystem g' [Done (RWorld w0)]) ∧
    heap g' !! length (heap g) = Some w0 ∧
    CANCELCHANNEL g' = None ∧ DONECANCELINGCHANNEL g' = Some true ∧
    ALIVECELLS g' = 0 ∧ COMPLETEDTURNS g' = 0 ∧ PARAMS g' = p.
Proof.
  intros Hd Hk Hc Hp Hn Hdn.
  destruct (make_grid_shape p w0 Hd) as (t & Hmk & _).
  pose (wl := length (heap g)).
  pose (g1 := with_PARAMS p (with_heap (heap g ++ [w0; t]) g)).
  pose (g2 := with_progress 0 0 (with_CANCELCHANNEL None g1)).
  pose (g3 := with_NUMBEROFCONTINUES 0 g2).
  pose (g4 := with_DONECANCELINGCHANNEL (Some true) g3).
  pose (g5 := with_WORLD (Some wl) g4).
  assert (heap g1 !! wl = Some w0) as Hw.
  { simpl. rewrite lookup_app_r by done. unfold wl.
    by rewrite Nat.sub_diag. }
  exists g5. split; [| by split_and!].
  intros s.
  rewrite (single_thread_nsteps g _ g1
             (Dist_head p wl (Datatypes.S wl) 0));
    [| done | by simpl; rewrite Hmk].
  rewrite (single_thread_nsteps g1 _ g2 (Dist_cancel_send wl 0));
    [| done
     | by simpl; unfold select_cases; simpl;
          rewrite Hc, Hp, decide_True by done].
  rewrite (single_thread_nsteps g2 _ g3 (Dist_cancel_done wl));
    [| done | by simpl; unfold drain; simpl; rewrite Hn, decide_False by lia].
  rewrite (single_thread_nsteps g3 _ g4 (Start_return wl));
    [| done | by simpl; rewrite Hdn].
  rewrite (single_thread_nsteps g4 _ g5 (Done (RWorld w0)));
    [| done | by simpl; rewrite lookup_app_r, Nat.sub_diag by done].
  split; [by inversion 1 | intros ->; constructor].
Qed.

Lemma pending_cancel_ends_next_start_witness :
  ∃ g',
    (∀ s, nsteps engine_step 5
            (mkSystem (with_CANCELCHANNEL (Some true) init_globals)
               [Start_entry sample_params sample_world]) s
          ↔ s = mkSystem g' [Done (RWorld sample_world)]) ∧
    heap g' !! length (heap (with_CANCELCHANNEL (Some true) init_globals))
    = Some sample_world ∧
    CANCELCHANNEL g' = None ∧ DONECANCELINGCHANNEL g' = Some true ∧
    ALIVECELLS g' = 0 ∧ COMPLETEDTURNS g' = 0 ∧ PARAMS g' = sample_params.
Proof.
  apply (pending_cancel_ends_next_start
           (with_CANCELCHANNEL (Some true) init_globals)
           sample_params true sample_world).
  - apply sample_world_well_formed.
  - simpl; lia.
  - reflexivity.
  - reflexivity.
  - reflexivity.
  - reflexivity.
Defined.

(** ** The controller: the list of alive cells *)

Example output_name_sample : output_name sample_params 2 = "3x3x2".
Proof. reflexivity. Qed.

Example getAliveCells_sample :
  getAliveCells sample_params sample_world
  = Some [mkCell 1 0; mkCell 1 1; mkCell 1 2].
Proof. reflexivity. Qed.

Lemma getAliveCells_spec p (w : grid) :
  has_dims p w →
  ∃ l, getAliveCells p w = Some l ∧ NoDup l ∧
       (∀ c, c ∈ l ↔ 0 ≤ Y c < ImageHeight p ∧ 0 ≤ X c < ImageWidth p ∧
                      get_cell w (Y c) (X c) = Some 255) ∧
       Z.of_nat (length l) = count_alive w.
Proof.
  intros Hd. pose proof Hd as (Hh & Hw & Hm).
  pose (listed (y : Z) (l : list Cell) :=
    NoDup l ∧
    (∀ c, c ∈ l ↔ 0 ≤ Y c < y ∧ 0 ≤ X c < ImageWidth p ∧
                   get_cell w (Y c) (X c) = Some 255) ∧
    Z.of_nat (length l) = count_alive (take (Z.to_nat y) w)).
  destruct (for_upto_inv listed
    (λ y finalAliveCells,
      for_upto 0 (ImageWidth p) (λ x finalAliveCells,
        c ← get_cell w y x;
        if decide (c = 255) then Some (finalAliveCells ++ [mkCell x y])
        else Some finalAliveCells) finalAliveCells)
    0 (ImageHeight p) []) as (l & Hl & Hnd & Hin & Hlen).
  - lia.
  - split_and!; [constructor | | done].
    intros c. split; [by intros ?%elem_of_nil | lia].
  - intros y l Hy (Hnd & Hin & Hlen).
    destruct (lookup_lt_is_Some_2 w (Z.to_nat y)) as [row Hr]; [lia |].
    pose proof (has_dims_row _ _ _ _ Hd Hr) as Hrow.
    pose (row_listed (x : Z) (l : list Cell) :=
      NoDup l ∧
      (∀ c, c ∈ l ↔
            (0 ≤ Y c < y ∧ 0 ≤ X c < ImageWidth p ∧
             get_cell w (Y c) (X c) = Some 255) ∨
            (Y c = y ∧ 0 ≤ X c < x ∧ get_cell w (Y c) (X c) = Some 255)) ∧
      Z.of_nat (length l)
      = count_alive (take (Z.to_nat y) w)
        + count_alive [take (Z.to_nat x) row]).
    destruct (for_upto_inv row_listed
      (λ x finalAliveCells,
        c ← get_cell w y x;
        if decide (c = 255) then Some (finalAliveCells ++ [mkCell x y])
        else Some finalAliveCells)
      0 (ImageWidth p) l) as (l' & Hl' & Hnd' & Hin' & Hlen').
    + lia.
    + split_and!; [done | | ].
      * intros c. rewrite Hin. split; [by left | intros [? | ?]; [done | lia]].
      * rewrite Hlen. unfold count_alive at 3. simpl. lia.
    + intros x l1 Hx (Hnd1 & Hin1 & Hlen1).
      destruct (lookup_lt_is_Some_2 row (Z.to_nat x)) as [c0 Hc0]; [lia |].
      assert (get_cell w y x = Some c0) as Hget.
      { apply get_cell_Some. split_and!; [lia | lia | by exists row]. }
      rewrite Hget. simpl.
      assert (count_alive [take (Z.to_nat (x + 1)) row]
              = count_alive [take (Z.to_nat x) row]
                + (if decide (c0 = 255) then 1 else 0)) as Hcount.
      { replace (Z.to_nat (x + 1)) with (Datatypes.S (Z.to_nat x)) by lia.
        by rewrite (take_S_r _ _ _ Hc0), count_alive_row_snoc. }
      case_decide as H255; (eexists; split; [done |]); split_and!.
      * apply NoDup_app. split_and!; [done | | apply NoDup_singleton].
        intros c Hc ->%list_elem_of_singleton.
        apply Hin1 in Hc. simpl in Hc. lia.
      * intros c. rewrite elem_of_app, list_elem_of_singleton, Hin1.
        destruct c as [cx cy]. simpl. split.
        -- intros [[? | (? & ? & ?)] | [= -> ->]];
             [by left | right; split_and!; (lia || done) |].
           right. subst c0. split_and!; (lia || done).
        -- intros [? | (-> & Hcx & Hc)]; [by left; left |].
           destruct (decide (cx = x)) as [-> | Hne]; [by right |].
           left; right. split_and!; (lia || done).
      * rewrite length_app, Hcount. simpl. lia.
      * done.
      * intros c. rewrite Hin1. destruct c as [cx cy]. simpl. split.
        -- intros [? | (? & ? & ?)];
             [by left | right; split_and!; (lia || done)].
        -- intros [? | (-> & Hcx & Hc)]; [by left |].
           destruct (decide (cx = x)) as [-> | Hne]; [congruence |].
           right. split_and!; (lia || done).
      * rewrite Hcount. lia.
    + exists l'. split; [done |]. split_and!; [done | |].
      * intros c. rewrite Hin'. split.
        -- intros [(? & ? & ?) | (? & ? & ?)]; split_and!; (lia || done).
        -- intros (Hcy & Hcx & Hc).
           destruct (decide (Y c = y)) as [Heq | Hne]; [by right |].
           left. split_and!; (lia || done).
      * rewrite Hlen'.
        replace (Z.to_nat (y + 1)) with (Datatypes.S (Z.to_nat y)) by lia.
        rewrite (take_S_r _ _ _ Hr), count_alive_snoc.
        by rewrite (take_ge row) by lia.
  - exists l. split; [done |]. split_and!; [done | done |].
    by rewrite take_ge in Hlen by lia.
Qed.

(** X13. On a grid of the parameters' dimensions, whatever bytes its
    cells hold, [getAliveCells] returns without a panic a list without
    duplicates that holds exactly the coordinates, within the grid, of the
    cells equal to 255. *)
Theorem getAliveCells_lists_alive p (w : grid) :
  has_dims p w →
  ∃ l, getAliveCells p w = Some l ∧ NoDup l ∧
       ∀ c, c ∈ l ↔ 0 ≤ Y c < ImageHeight p ∧ 0 ≤ X c < ImageWidth p ∧
                     get_cell w (Y c) (X c) = Some 255.
Proof.
  intros Hd. destruct (getAliveCells_spec p w Hd) as (l & Hl & Hnd & Hin & _).
  by exists l.
Qed.

Lemma getAliveCells_lists_alive_witness :
  ∃ l, getAliveCells sample_params sample_bytes = Some l ∧ NoDup l ∧
       ∀ c, c ∈ l ↔ 0 ≤ Y c < ImageHeight sample_params ∧
                     0 ≤ X c < ImageWidth sample_params ∧
                     get_cell sample_bytes (Y c) (X c) = Some 255.
Proof.
  apply (getAliveCells_lists_alive sample_params sample_bytes).
  apply sample_bytes_dims.
Defined.

(** X14. The controller's list and the engine's count agree: on a grid of
    the parameters' dimensions, [getAliveCells] lists as many cells as
    [getNumAliveCells] counts. *)
Theorem getAliveCells_length_is_count p (w : grid) :
  has_dims p w →
  ∃ l, getAliveCells p w = Some l ∧
       getNumAliveCells p w = Some (Z.of_nat (length l)).
Proof.
  intros Hd. destruct (getAliveCells_spec p w Hd) as (l & Hl & _ & _ & Hlen).
  exists l. split; [done |].
  rewrite Hlen. by apply getNumAliveCells_count.
Qed.

Lemma getAliveCells_length_is_count_witness :
  ∃ l, getAliveCells sample_params sample_world = Some l ∧
       getNumAliveCells sample_params sample_world
       = Some (Z.of_nat (length l)).
Proof.
  apply (getAliveCells_length_is_count sample_params sample_world).
  apply sample_world_well_formed.
Defined.

(** ** The controller: writing and reading a world *)

(** The image is sent row by row. *)
Lemma outputPGM_loops p (w : grid) (header : list action) :
  has_dims p w →
  for_upto 0 (ImageHeight p) (λ y sent,
    for_upto 0 (ImageWidth p) (λ x sent,
      b ← get_cell w y x;
      Some (sent ++ [Send_ioOutput b])) sent) header
  = Some (header ++ (Send_ioOutput <$> concat w)).
Proof.
  intros Hd. pose proof Hd as (Hh & Hw & Hm).
  pose (rows_sent (y : Z) (sent : list action) :=
    sent = header ++ (Send_ioOutput <$> concat (take (Z.to_nat y) w))).
  destruct (for_upto_inv rows_sent
    (λ y sent,
      for_upto 0 (ImageWidth p) (λ x sent,
        b ← get_cell w y x;
        Some (sent ++ [Send_ioOutput b])) sent)
    0 (ImageHeight p) header) as (sent & -> & Hsent).
  - lia.
  - unfold rows_sent. simpl. by rewrite app_nil_r.
  - intros y sent Hy ->.
    destruct (lookup_lt_is_Some_2 w (Z.to_nat y)) as [row Hr]; [lia |].
    pose proof (has_dims_row _ _ _ _ Hd Hr) as Hrow.
    pose (cells_sent (x : Z) (sent : list action) :=
      sent = header ++ (Send_ioOutput <$> concat (take (Z.to_nat y) w))
             ++ (Send_ioOutput <$> take (Z.to_nat x) row)).
    destruct (for_upto_inv cells_sent
      (λ x sent, b ← get_cell w y x; Some (sent ++ [Send_ioOutput b]))
      0 (ImageWidth p)
      (header ++ (Send_ioOutput <$> concat (take (Z.to_nat y) w))))
      as (sent & -> & Hsent).
    + lia.
    + unfold cells_sent. simpl. by rewrite app_nil_r.
    + intros x sent Hx ->.
      destruct (lookup_lt_is_Some_2 row (Z.to_nat x)) as [b Hb]; [lia |].
      assert (get_cell w y x = Some b) as ->.
      { apply get_cell_Some. split_and!; [lia | lia | by exists row]. }
      simpl. eexists. split; [done |]. unfold cells_sent.
      replace (Z.to_nat (x + 1)) with (Datatypes.S (Z.to_nat x)) by lia.
      rewrite (take_S_r _ _ _ Hb), fmap_app. simpl.
      by rewrite <- !app_assoc.
    + eexists. split; [done |]. unfold rows_sent, cells_sent in *.
      rewrite Hsent.
      replace (Z.to_nat (y + 1)) with (Datatypes.S (Z.to_nat y)) by lia.
      rewrite (take_S_r _ _ _ Hr), concat_app, fmap_app. simpl.
      rewrite app_nil_r. by rewrite (take_ge row) by lia.
  - unfold rows_sent in Hsent. rewrite take_ge in Hsent by lia.
    by rewrite Hsent.
Qed.

(** X15. [outputPGM] on a grid of the parameters' dimensions does not
    panic, and what it does on the channels is, in this order: the command
    [ioOutput], the file name "<height>x<width>x<turn>", every byte of the
    grid row by row, the command [ioCheckIdle], a receive from [ioIdle]
    and the event [ImageOutputComplete] with the turn and the same
    name. *)
Theorem outputPGM_sends_rows p (w : grid) turn :
  has_dims p w →
  outputPGM w p turn
  = Some ([Send_ioCommand ioOutput; Send_ioFilename (output_name p turn)]
          ++ (Send_ioOutput <$> concat w)
          ++ [Send_ioCommand ioCheckIdle; Recv_ioIdle;
              Send_ImageOutputComplete turn (output_name p turn)]).
Proof.
  intros Hd. unfold outputPGM.
  rewrite outputPGM_loops by done. reflexivity.
Qed.

Lemma outputPGM_sends_rows_witness :
  outputPGM sample_bytes sample_params 2
  = Some ([Send_ioCommand ioOutput;
           Send_ioFilename (output_name sample_params 2)]
          ++ (Send_ioOutput <$> concat sample_bytes)
          ++ [Send_ioCommand ioCheckIdle; Recv_ioIdle;
              Send_ImageOutputComplete 2 (output_name sample_params 2)]).
Proof.
  apply (outputPGM_sends_rows sample_params sample_bytes 2).
  apply sample_bytes_dims.
Defined.

(** X16. For one image size, snapshots of different turns get different
    file names. *)
Theorem output_name_distinguishes_turns p turn1 turn2 :
  turn1 ≠ turn2 → output_name p turn1 ≠ output_name p turn2.
Proof.
  unfold output_name. intros Hne Heq. apply Hne.
  do 4 apply (inj (String.app _)) in Heq.
  by apply (inj pretty) in Heq.
Qed.

Lemma output_name_distinguishes_turns_witness :
  output_name sample_params 1 ≠ output_name sample_params 2.
Proof.
  apply (output_name_distinguishes_turns sample_params 1 2). lia.
Defined.

(** What a loop that has returned leaves, given what each iteration
    keeps. *)
Lemma for_range_post {S} (I : Z → S → Prop) (body : Z → S → option S) n :
  ∀ lo s s',
  for_range body lo n s = Some s' →
  I lo s →
  (∀ k s s1, lo ≤ k < lo + Z.of_nat n → I k s → body k s = Some s1 →
             I (k + 1) s1) →
  I (lo + Z.of_nat n) s'.
Proof.
  induction n as [|n IH]; intros lo s s' Hrun H0 Hstep; simpl in Hrun.
  - injection Hrun as <-. by rewrite Z.add_0_r.
  - destruct (body lo s) as [s1|] eqn:Hb; [| done]. simpl in Hrun.
    replace (lo + Z.of_nat (Datatypes.S n)) with (lo + 1 + Z.of_nat n) by lia.
    apply (IH (lo + 1) s1 s' Hrun).
    + apply (Hstep lo s s1); [lia | done | done].
    + intros k s2 s3 Hk. apply Hstep. lia.
Qed.

Lemma for_upto_post {S} (I : Z → S → Prop) (body : Z → S → option S)
    lo hi s s' :
  lo ≤ hi →
  for_upto lo hi body s = Some s' →
  I lo s →
  (∀ k s s1, lo ≤ k < hi → I k s → body k s = Some s1 → I (k + 1) s1) →
  I hi s'.
Proof.
  intros Hle Hrun H0 Hstep. unfold for_upto in Hrun.
  replace hi with (lo + Z.of_nat (Z.to_nat (hi - lo))) by lia.
  eapply for_range_post; [done | done |].
  intros k s1 s2 Hk. apply Hstep. lia.
Qed.

Lemma set_cell_inv (w w' : grid) y x v :
  set_cell w y x v = Some w' →
  ∃ row, 0 ≤ y ∧ 0 ≤ x ∧ w !! Z.to_nat y = Some row ∧
         (Z.to_nat x < length row)%nat ∧
         w' = <[Z.to_nat y := <[Z.to_nat x := v]> row]> w.
Proof.
  unfold set_cell. intros Hset.
  destruct (index w y) as [row|] eqn:Hr; [| done]. simpl in Hset.
  destruct (index row x) as [c|] eqn:Hc; [| done]. simpl in Hset.
  injection Hset as <-.
  apply index_Some in Hr as [Hy Hr], Hc as [Hx Hc].
  exists row. split_and!; [done | done | done | | done].
  by eapply lookup_lt_Some.
Qed.

(** The loops of [load_world]: what they have consumed when they return
    is the content of the world, row by row. *)
Lemma load_loops_post p (t0 w' : grid) (input0 input' : list Z) :
  has_dims p t0 →
  for_upto 0 (ImageHeight p) (λ y st,
    for_upto 0 (ImageWidth p) (λ x '(world, input),
      match input with
      | b :: input => world ← set_cell world y x b; Some (world, input)
      | [] => None
      end) st) (t0, input0) = Some (w', input') →
  length <$> w' = length <$> t0 ∧ input0 = concat w' ++ input'.
Proof.
  intros Hd Hrun. pose proof Hd as (Hh & Hw & Hm).
  pose (rows_read (y : Z) (st : grid * list Z) :=
    length <$> st.1 = length <$> t0 ∧
    input0 = concat (take (Z.to_nat y) st.1) ++ st.2).
  assert (rows_read (ImageHeight p) (w', input')) as [Hs Hin].
  { assert (0 ≤ ImageHeight p) as Hh0 by lia.
    apply (for_upto_post rows_read _ _ _ _ _ Hh0 Hrun); [done |].
    clear Hrun w' input'.
    intros y [w1 in1] [w2 in2] Hy [Hs1 Hin1] Hrow. simpl in *.
    assert (has_dims p w1) as Hd1 by by eapply has_dims_shape.
    destruct (lookup_lt_is_Some_2 w1 (Z.to_nat y)) as [row1 Hr1].
    { destruct Hd1 as (Hh1 & _). lia. }
    pose (cells_read (x : Z) (st : grid * list Z) :=
      length <$> st.1 = length <$> t0 ∧
      take (Z.to_nat y) st.1 = take (Z.to_nat y) w1 ∧
      ∃ row, st.1 !! Z.to_nat y = Some row ∧
             in1 = take (Z.to_nat x) row ++ st.2).
    assert (cells_read (ImageWidth p) (w2, in2)) as (Hs2 & Ht2 & row & Hr & Hi).
    { assert (0 ≤ ImageWidth p) as Hw0.
      { rewrite <- (has_dims_row _ _ _ _ Hd1 Hr1). lia. }
      apply (for_upto_post cells_read _ _ _ _ _ Hw0 Hrow).
      - split_and!; [done | done |]. by exists row1.
      - intros x [w3 in3] [w4 in4] Hx (Hs3 & Ht3 & row & Hr & Hi) Hcell.
        simpl in *.
        destruct in3 as [|b in3]; [done |].
        destruct (set_cell w3 y x b) as [w5|] eqn:Hset; [| done].
        simpl in Hcell. injection Hcell as -> ->.
        apply set_cell_inv in Hset as (row' & _ & _ & Hr' & Hlx & ->).
        assert (row' = row) as -> by congruence.
        pose proof (lookup_lt_Some _ _ _ Hr) as Hly.
        split_and!; simpl.
        + rewrite list_fmap_insert, length_insert.
          rewrite list_insert_id; [done |]. by rewrite list_lookup_fmap, Hr.
        + by rewrite take_insert_ge.
        + exists (<[Z.to_nat x := b]> row).
          split; [by apply list_lookup_insert_eq |].
          replace (Z.to_nat (x + 1)) with (Datatypes.S (Z.to_nat x)) by lia.
          rewrite (take_S_r _ _ b) by by apply list_lookup_insert_eq.
          rewrite take_insert_ge by done.
          by rewrite <- app_assoc. }
    simpl in *. split; [done |].
    replace (Z.to_nat (y + 1)) with (Datatypes.S (Z.to_nat y)) by lia.
    simpl.
    rewrite (take_S_r _ _ _ Hr), concat_app. simpl.
    rewrite app_nil_r, <- app_assoc, Ht2, Hin1, Hi.
    assert (has_dims p w2) as Hd2 by by eapply has_dims_shape.
    pose proof (has_dims_row _ _ _ _ Hd2 Hr).
    by rewrite (take_ge row) by lia. }
  simpl in *. split; [done |].
  rewrite take_ge in Hin; [done |].
  rewrite <- (length_fmap length w'), Hs, length_fmap. lia.
Qed.

(** With enough input, the loops return. *)
Lemma load_loops_run p (t0 : grid) (input0 : list Z) :
  has_dims p t0 →
  ImageHeight p * ImageWidth p ≤ Z.of_nat (length input0) →
  is_Some
    (for_upto 0 (ImageHeight p) (λ y st,
       for_upto 0 (ImageWidth p) (λ x '(world, input),
         match input with
         | b :: input => world ← set_cell world y x b; Some (world, input)
         | [] => None
         end) st) (t0, input0)).
Proof.
  intros Hd Hlen. pose proof Hd as (Hh & Hw & Hm).
  pose (left_over (y : Z) (st : grid * list Z) :=
    length <$> st.1 = length <$> t0 ∧
    Z.of_nat (length st.2)
    = Z.of_nat (length input0) - y * ImageWidth p).
  destruct (for_upto_inv left_over
    (λ y st,
       for_upto 0 (ImageWidth p) (λ x '(world, input),
         match input with
         | b :: input => world ← set_cell world y x b; Some (world, input)
         | [] => None
         end) st)
    0 (ImageHeight p) (t0, input0)) as (st & Hst & _).
  - lia.
  - split; [done |]. simpl. lia.
  - intros y [w1 in1] Hy [Hs1 Hl1]. simpl in *.
    assert (has_dims p w1) as Hd1 by by eapply has_dims_shape.
    assert (0 ≤ ImageWidth p) as Hw0.
    { destruct (lookup_lt_is_Some_2 w1 (Z.to_nat y)) as [row1 Hr1].
      - destruct Hd1 as (Hh1 & _). lia.
      - rewrite <- (has_dims_row _ _ _ _ Hd1 Hr1). lia. }
    pose (left_over_row (x : Z) (st : grid * list Z) :=
      length <$> st.1 = length <$> t0 ∧
      Z.of_nat (length st.2)
      = Z.of_nat (length input0) - y * ImageWidth p - x).
    destruct (for_upto_inv left_over_row
      (λ x '(world, input),
         match input with
         | b :: input => world ← set_cell world y x b; Some (world, input)
         | [] => None
         end)
      0 (ImageWidth p) (w1, in1)) as (st & Hst & Hs2 & Hl2).
    + done.
    + split; [done |]. simpl. lia.
    + intros x [w3 in3] Hx [Hs3 Hl3]. simpl in *.
      destruct in3 as [|b in3]; [simpl in Hl3; nia |].
      assert (has_dims p w3) as Hd3 by by eapply has_dims_shape.
      destruct (set_cell_Some w3 y x b) as (w4 & -> & Hs4 & _).
      { by apply (get_cell_in_range p). }
      simpl. eexists. split; [done |]. split; simpl.
      * congruence.
      * simpl in Hl3. lia.
    + exists st. split; [done |]. split; [done |]. lia.
  - by exists st.
Qed.

Lemma make_grid_dims p :
  0 ≤ ImageHeight p → 0 ≤ ImageWidth p →
  ImageHeight p * ImageWidth p ≤ max_alloc →
  ∃ t, make_grid p = Some t ∧ has_dims p t.
Proof.
  intros Hh Hw Hm. unfold make_grid.
  rewrite !decide_False by lia. eexists. split; [done |].
  unfold has_dims. split_and!; [| | done].
  - rewrite length_replicate. lia.
  - apply Forall_replicate. rewrite length_replicate. lia.
Qed.

Lemma load_world_rows p (input : list Z) :
  0 ≤ ImageHeight p → 0 ≤ ImageWidth p →
  ImageHeight p * ImageWidth p ≤ max_alloc →
  ImageHeight p * ImageWidth p ≤ Z.of_nat (length input) →
  ∃ w, load_world p false input
       = Some (w, [Send_ioCommand ioInput; Send_ioFilename (input_name p)],
               drop (Z.to_nat (ImageHeight p * ImageWidth p)) input) ∧
       has_dims p w ∧
       concat w = take (Z.to_nat (ImageHeight p * ImageWidth p)) input.
Proof.
  intros Hh Hw Hm Hlen.
  destruct (make_grid_dims p Hh Hw Hm) as (t & Hmk & Hd).
  destruct (load_loops_run p t input Hd Hlen) as [[w rest] Hrun].
  destruct (load_loops_post p t w input rest Hd Hrun) as [Hs Hin].
  assert (has_dims p w) as Hdw by by eapply has_dims_shape.
  pose proof (has_dims_cells p w Hdw) as Hcells.
  exists w. unfold load_world. rewrite Hmk. simpl. rewrite Hrun. simpl.
  rewrite Hin. split_and!; [| done |].
  - by rewrite drop_app_length' by lia.
  - by rewrite take_app_length' by lia.
Qed.

(** X17. The start of [engine], no run being under way: with at least
    height * width bytes to come on [ioInput], it sends the command
    [ioInput] and the file name "<height>x<width>", takes exactly the first
    height * width bytes and leaves a world of the parameters' dimensions
    that holds them row by row; with fewer bytes to come it never gets
    past its reads. *)
Theorem load_world_reads_rows p (input : list Z) :
  0 ≤ ImageHeight p → 0 ≤ ImageWidth p →
  ImageHeight p * ImageWidth p ≤ max_alloc →
  (ImageHeight p * ImageWidth p ≤ Z.of_nat (length input) →
   ∃ w, load_world p false input
        = Some (w, [Send_ioCommand ioInput; Send_ioFilename (input_name p)],
                drop (Z.to_nat (ImageHeight p * ImageWidth p)) input) ∧
        has_dims p w ∧
        concat w = take (Z.to_nat (ImageHeight p * ImageWidth p)) input) ∧
  (Z.of_nat (length input) < ImageHeight p * ImageWidth p →
   load_world p false input = None).
Proof.
  intros Hh Hw Hm. split; [by apply load_world_rows |].
  intros Hshort.
  destruct (make_grid_dims p Hh Hw Hm) as (t & Hmk & Hd).
  unfold load_world. rewrite Hmk. simpl.
  match goal with
  | |- ?loops ≫= _ = None => destruct loops as [[w rest]|] eqn:Hrun
  end; [| done].
  exfalso.
  destruct (load_loops_post p t w input rest Hd Hrun) as [Hs Hin].
  assert (has_dims p w) as Hdw by by eapply has_dims_shape.
  pose proof (has_dims_cells p w Hdw) as Hcells.
  rewrite Hin, length_app in Hshort. lia.
Qed.

Lemma load_world_reads_rows_witness :
  (ImageHeight sample_params * ImageWidth sample_params
   ≤ Z.of_nat (length [0; 255; 0; 0; 255; 0; 0; 255; 0; 9]) →
   ∃ w, load_world sample_params false [0; 255; 0; 0; 255; 0; 0; 255; 0; 9]
        = Some (w, [Send_ioCommand ioInput;
                    Send_ioFilename (input_name sample_params)],
                drop (Z.to_nat (ImageHeight sample_params
                                * ImageWidth sample_params))
                  [0; 255; 0; 0; 255; 0; 0; 255; 0; 9]) ∧
        has_dims sample_params w ∧
        concat w
        = take (Z.to_nat (ImageHeight sample_params
                          * ImageWidth sample_params))
            [0; 255; 0; 0; 255; 0; 0; 255; 0; 9]) ∧
  (Z.of_nat (length [0; 255; 0; 0; 255; 0; 0; 255; 0; 9])
   < ImageHeight sample_params * ImageWidth sample_params →
   load_world sample_params false [0; 255; 0; 0; 255; 0; 0; 255; 0; 9]
   = None).
Proof.
  apply (load_world_reads_rows sample_params
           [0; 255; 0; 0; 255; 0; 0; 255; 0; 9]).
  - simpl; lia.
  - simpl; lia.
  - by vm_compute.
Defined.

Example load_world_sample :
  load_world sample_params false [0; 255; 0; 0; 255; 0; 0; 255; 0; 9]
  = Some (sample_world,
          [Send_ioCommand ioInput; Send_ioFilename "3x3"], [9]).
Proof. reflexivity. Qed.

Example load_world_short :
  load_world sample_params false [0; 255; 0] = None.
Proof. reflexivity. Qed.

Lemma concat_dims_inj p (a b : grid) :
  has_dims p a → has_dims p b → concat a = concat b → a = b.
Proof.
  intros (Ha & Hwa & _) (Hb & Hwb & _) Heq.
  assert (length a = length b) as Hlen by lia. clear Ha Hb.
  revert b Hwb Heq Hlen.
  induction Hwa as [|ra a Hra Hwa IH]; intros b Hwb Heq Hlen.
  - by destruct b.
  - destruct b as [|rb b]; [done |].
    apply Forall_cons in Hwb as [Hrb Hwb]. simpl in *.
    apply app_inj_1 in Heq as [-> Heq]; [| lia].
    f_equal. apply IH; [done | done | lia].
Qed.

Lemma output_bytes_sends (l : list Z) :
  output_bytes (Send_ioOutput <$> l) = l.
Proof.
  unfold output_bytes. induction l as [|b l IH]; [done |].
  rewrite fmap_cons. cbn [omap list_omap]. by rewrite IH.
Qed.

(** X18. What [outputPGM] sends on [ioOutput] is what the start of
    [engine] reads back: on a grid of the parameters' dimensions, the bytes
    [outputPGM] sends, followed by anything, make [engine] load that very
    grid and leave what followed. *)
Theorem output_then_load_round_trip p (w : grid) turn (rest : list Z) :
  has_dims p w → 0 ≤ ImageWidth p →
  ∃ sent,
    outputPGM w p turn = Some sent ∧
    load_world p false (output_bytes sent ++ rest)
    = Some (w, [Send_ioCommand ioInput; Send_ioFilename (input_name p)],
            rest).
Proof.
  intros Hd Hw0. pose proof Hd as (Hh & Hw & Hm).
  pose proof (has_dims_cells p w Hd) as Hcells.
  unfold outputPGM. rewrite outputPGM_loops by done. simpl.
  eexists. split; [done |].
  assert (∀ l k, output_bytes
    (Send_ioCommand ioOutput :: Send_ioFilename (output_name p turn)
     :: (Send_ioOutput <$> l) ++ k)
    = l ++ output_bytes k) as Hbytes.
  { intros l k. unfold output_bytes. simpl.
    rewrite omap_app. f_equal. apply output_bytes_sends. }
  rewrite Hbytes. simpl. rewrite app_nil_r.
  destruct (load_world_rows p (concat w ++ rest))
    as (w' & -> & Hd' & Hcat); [lia | done | done | |].
  { rewrite length_app. lia. }
  rewrite take_app_length' in Hcat by lia.
  rewrite drop_app_length' by lia.
  by rewrite (concat_dims_inj p w' w Hd' Hd Hcat).
Qed.

Lemma output_then_load_round_trip_witness :
  ∃ sent,
    outputPGM sample_bytes sample_params 2 = Some sent ∧
    load_world sample_params false (output_bytes sent ++ [9])
    = Some (sample_bytes,
            [Send_ioCommand ioInput;
             Send_ioFilename (input_name sample_params)], [9]).
Proof.
  apply (output_then_load_round_trip sample_params sample_bytes 2 [9]).
  - apply sample_bytes_dims.
  - simpl; lia.
Defined.

(** ** What the other calls leave alone *)

Lemma other_call_frame g t g' t' :
  is_start_thread t = false → (g', t') ∈ thread_step g t →
  heap g' = heap g ∧ snapshot g' = snapshot g ∧ PARAMS g' = PARAMS g ∧
  is_start_thread t' = false ∧ t' ≠ Panicked.
Proof.
  intros Ht Hstep.
  destruct t; try discriminate Ht; simpl in Hstep;
    repeat case_decide;
    repeat match type of Hstep with
           | context [match ?c with _ => _ end] => destruct c
           end;
    try (by inversion Hstep);
    apply list_elem_of_singleton in Hstep; injection Hstep as -> ->; done.
Qed.

(** X19. As long as no call of [Start] is in progress, nothing is
    published: whatever [IsAlreadyRunning], [Continue], [Save], [Pause],
    [Execute], [Quit] and [GetAliveCells] calls do, from any state and in
    any interleaving, the grids, [WORLD], Progress and [PARAMS] stay as
    they were, and none of these calls panics. *)
Theorem without_start_nothing_changes s s' :
  Forall (λ t, is_start_thread t = false) (pool s) →
  Panicked ∉ pool s →
  rtc engine_step s s' →
  heap (globals s') = heap (globals s) ∧
  snapshot (globals s') = snapshot (globals s) ∧
  PARAMS (globals s') = PARAMS (globals s) ∧
  Forall (λ t, is_start_thread t = false) (pool s') ∧
  Panicked ∉ pool s'.
Proof.
  intros Hts Hp Hsteps.
  induction Hsteps as [s | s s1 s' Hstep Hsteps IH]; [done |].
  destruct Hstep as [g ts i t g' t' _ Hi Hstep]. simpl in *.
  assert (is_start_thread t = false) as Ht.
  { rewrite Forall_lookup in Hts. eauto. }
  destruct (other_call_frame _ _ _ _ Ht Hstep) as (Hh & Hsn & Hpa & Ht' & Hnp).
  destruct IH as (Hh' & Hsn' & Hpa' & Hts' & Hp').
  - by apply Forall_insert.
  - intros Hin. apply list_elem_of_lookup in Hin as [j Hj].
    destruct (decide (j = i)) as [-> | Hne].
    + rewrite list_lookup_insert_eq in Hj by by eapply lookup_lt_Some.
      congruence.
    + rewrite list_lookup_insert_ne in Hj by done.
      apply Hp. by eapply list_elem_of_lookup_2.
  - split_and!; [congruence | congruence | congruence | done | done].
Qed.

Lemma without_start_nothing_changes_witness :
  ∃ s',
    rtc engine_step
      (mkSystem sample_loop_globals [Pause_entry; Continue_entry; Quit_entry])
      s' ∧
    pool s' = [Pause_reply; Continue_wait; Done (RTurns 0)] ∧
    heap (globals s') = heap sample_loop_globals ∧
    snapshot (globals s') = snapshot sample_loop_globals ∧
    PARAMS (globals s') = PARAMS sample_loop_globals ∧
    Forall (λ t, is_start_thread t = false) (pool s') ∧
    Panicked ∉ pool s'.
Proof.
  eexists. split; [| split].
  - eapply rtc_nsteps_2.
    apply (run_nsteps [(0, 0); (1, 0); (2, 0)]%nat). vm_compute. reflexivity.
  - reflexivity.
  - apply (without_start_nothing_changes
             (mkSystem sample_loop_globals
                [Pause_entry; Continue_entry; Quit_entry])).
    + repeat first [apply Forall_nil_2 | apply Forall_cons_2]; reflexivity.
    + simpl. intros Hin.
      repeat (apply elem_of_cons in Hin as [Hin | Hin]; [done |]).
      by inversion Hin.
    + eapply rtc_nsteps_2.
      apply (run_nsteps [(0, 0); (1, 0); (2, 0)]%nat).
      vm_compute. reflexivity.
Defined.
